(** * The chat page of the Llama rule rewriter: model lifecycle and streaming

    A shallow embedding of [src/web/src/app/page.tsx] (the [Home] component)
    and the properties of its model-loading effect and of [handleSend].

    The component is a set of React state variables, one ref, and two kinds of
    asynchronous work: the [init] function of the model-loading effect and the
    body of [handleSend].  JavaScript runs them on one thread, so each piece of
    code between two [await]s is atomic.  The embedding makes that explicit:
    the state holds the React variables together with the pending asynchronous
    tasks (each with the variables its closure captured), and every piece of
    code that runs atomically is one transition, triggered by an event of the
    user or of the engine. *)

From Stdlib Require Import NArith ZArith String Ascii.
From stdpp Require Import base option numbers list.

(** ** JavaScript strings *)

(** A JavaScript string is a sequence of UTF-16 code units. *)
Definition jsstring := list N.

(** An ASCII literal of the source as a JavaScript string. *)
Definition str (s : string) : jsstring :=
  map N_of_ascii (list_ascii_of_string s).

Definition ellipsis : N := 0x2026.          (* the character … *)
Definition bullet : N := 0x2022.            (* the character • *)
Definition warning_sign : jsstring := [0x26A0; 0xFE0F]%N.  (* the emoji ⚠️ *)

(** [s.length > 0], which for a string is also its truthiness. *)
Definition nonempty (s : jsstring) : bool :=
  match s with
  | [] => false
  | _ :: _ => true
  end.

(** The code units that [String.prototype.trim] strips: ECMAScript's
    WhiteSpace and LineTerminator productions. *)
Definition is_white_space (c : N) : bool :=
  (  (c =? 0x0009) || (c =? 0x000A) || (c =? 0x000B) || (c =? 0x000C)
  || (c =? 0x000D) || (c =? 0x0020) || (c =? 0x00A0) || (c =? 0x1680)
  || ((0x2000 <=? c) && (c <=? 0x200A))
  || (c =? 0x2028) || (c =? 0x2029) || (c =? 0x202F) || (c =? 0x205F)
  || (c =? 0x3000) || (c =? 0xFEFF))%N.

Fixpoint trimStart (s : jsstring) : jsstring :=
  match s with
  | [] => []
  | c :: rest => if is_white_space c then trimStart rest else s
  end.

Definition trimEnd (s : jsstring) : jsstring :=
  reverse (trimStart (reverse s)).

Definition trim (s : jsstring) : jsstring :=
  trimEnd (trimStart s).

(** ** Data model *)

Inductive Role := user | assistant.

Record ChatMessage := { role : Role; content : jsstring }.

(** Messages of a completion request: the chat messages and the leading
    system message. *)
Inductive ApiRole := system | chat (r : Role).

Record ApiMessage := { api_role : ApiRole; api_content : jsstring }.

Definition api_of (m : ChatMessage) : ApiMessage :=
  {| api_role := chat (role m); api_content := content m |}.

Definition line_feed : N := 0x000A.

(** The template literal of lines 20-22: three lines, the first two ending in
    a space before the line break. *)
Definition DEFAULT_RULES : jsstring :=
  str "You are a loyal personal assistant that follows the user's custom rules precisely. "
  ++ [line_feed]
  ++ str "Provide concise, actionable answers, always prioritizing the user's preferences. "
  ++ [line_feed]
  ++ str "If a request conflicts with the user's rules, remind them of the active instructions instead of refusing outright.".

(** [InitProgressReport].  Its [progress] field is a floating-point number,
    of which the code uses its truthiness and the characters that the
    template literal of line 31 prints for [Math.round(progress * 100)].
    Floating-point arithmetic and number printing are not modelled: the
    report carries those characters as they are, [progress_pct] being [None]
    for a falsy [progress] and the printed characters otherwise.  [text] is
    [None] when it is null or undefined. *)
Record InitProgressReport := {
  progress_pct : option jsstring;
  text : option jsstring
}.

Definition formatProgress (progress : option InitProgressReport) : jsstring :=
  match progress with
  | None => []
  | Some p =>
      let percentage := progress_pct p in
      let text := default [] (text p) in
      match percentage with
      | None => text
      | Some percentage =>
          percentage ++ str "% " ++ [bullet] ++ str " " ++ text
      end
  end.

(** An entry of [prebuiltAppConfig.model_list]; the load recipe is opaque. *)
Record ModelRecord := { model_id : jsstring }.

(** An engine instance: the value a call of [CreateMLCEngine] resolves to,
    identified by the run of [init] that made the call. *)
Record Engine := {
  engine_model : jsstring;
  engine_attempt : nat
}.

(** The argument of [engine.chat.completions.create].  The temperature is
    recorded as the slider value, in tenths: the source sends
    [Number((temperature / 10).toFixed(2))]. *)
Record CompletionRequest := {
  req_stream : bool;
  req_messages : list ApiMessage;
  req_temperature_tenths : Z;
  req_max_tokens : Z
}.

(** ** Asynchronous tasks *)

(** One run of [init]: the model it loads, the [appConfig] record it found,
    the [cancelled] variable of its effect closure, and whether the promise
    of [CreateMLCEngine] has settled. *)
Record LoadTask := {
  load_model_id : jsstring;
  load_record : option ModelRecord;
  cancelled : bool;
  load_settled : bool
}.

(** Where a call of [handleSend] is suspended. *)
Inductive Stage :=
  | AwaitStream     (* await engine.chat.completions.create(...) *)
  | Streaming       (* inside the for-await loop *)
  | AwaitFinal      (* await engine.getMessage() *)
  | Finished.       (* the finally block has run *)

(** One call of [handleSend] that got past its guards: the engine its closure
    captured, the request it made, its local [aggregate]. *)
Record GenTask := {
  gen_engine : Engine;
  gen_request : CompletionRequest;
  aggregate : jsstring;
  stage : Stage
}.

(** ** Component state *)

(** The [useState] variables. *)
Record View := {
  selectedModelId : jsstring;
  engine : option Engine;
  engineStatus : jsstring;
  loadProgress : option InitProgressReport;
  isLoadingModel : bool;
  systemRules : jsstring;
  messages : list ChatMessage;
  userInput : jsstring;
  isStreaming : bool;
  temperature : Z;
  maxTokens : Z
}.

(** The whole component: the view, [conversationRef.current], the runs of
    [init] so far, the run whose cleanup function the effect has registered,
    and the calls of [handleSend] so far. *)
Record State := {
  view :> View;
  conversationRef : list ChatMessage;
  loads : list LoadTask;
  effectCleanup : option nat;
  gens : list GenTask
}.

Definition with_view (f : View → View) (s : State) : State :=
  {| view := f (view s); conversationRef := conversationRef s;
     loads := loads s; effectCleanup := effectCleanup s; gens := gens s |}.

Definition with_loads (f : list LoadTask → list LoadTask) (s : State) : State :=
  {| view := view s; conversationRef := conversationRef s;
     loads := f (loads s); effectCleanup := effectCleanup s; gens := gens s |}.

Definition with_gens (f : list GenTask → list GenTask) (s : State) : State :=
  {| view := view s; conversationRef := conversationRef s;
     loads := loads s; effectCleanup := effectCleanup s; gens := f (gens s) |}.

Definition with_cleanup (c : option nat) (s : State) : State :=
  {| view := view s; conversationRef := conversationRef s;
     loads := loads s; effectCleanup := c; gens := gens s |}.

(** *** State setters *)

Definition setSelectedModelId (x : jsstring) : State → State :=
  with_view (λ v,
    {| selectedModelId := x; engine := engine v;
       engineStatus := engineStatus v; loadProgress := loadProgress v;
       isLoadingModel := isLoadingModel v; systemRules := systemRules v;
       messages := messages v; userInput := userInput v;
       isStreaming := isStreaming v; temperature := temperature v;
       maxTokens := maxTokens v |}).

Definition setEngine (x : option Engine) : State → State :=
  with_view (λ v,
    {| selectedModelId := selectedModelId v; engine := x;
       engineStatus := engineStatus v; loadProgress := loadProgress v;
       isLoadingModel := isLoadingModel v; systemRules := systemRules v;
       messages := messages v; userInput := userInput v;
       isStreaming := isStreaming v; temperature := temperature v;
       maxTokens := maxTokens v |}).

Definition setEngineStatus (x : jsstring) : State → State :=
  with_view (λ v,
    {| selectedModelId := selectedModelId v; engine := engine v;
       engineStatus := x; loadProgress := loadProgress v;
       isLoadingModel := isLoadingModel v; systemRules := systemRules v;
       messages := messages v; userInput := userInput v;
       isStreaming := isStreaming v; temperature := temperature v;
       maxTokens := maxTokens v |}).

Definition setLoadProgress (x : option InitProgressReport) : State → State :=
  with_view (λ v,
    {| selectedModelId := selectedModelId v; engine := engine v;
       engineStatus := engineStatus v; loadProgress := x;
       isLoadingModel := isLoadingModel v; systemRules := systemRules v;
       messages := messages v; userInput := userInput v;
       isStreaming := isStreaming v; temperature := temperature v;
       maxTokens := maxTokens v |}).

Definition setIsLoadingModel (x : bool) : State → State :=
  with_view (λ v,
    {| selectedModelId := selectedModelId v; engine := engine v;
       engineStatus := engineStatus v; loadProgress := loadProgress v;
       isLoadingModel := x; systemRules := systemRules v;
       messages := messages v; userInput := userInput v;
       isStreaming := isStreaming v; temperature := temperature v;
       maxTokens := maxTokens v |}).

Definition setSystemRules (x : jsstring) : State → State :=
  with_view (λ v,
    {| selectedModelId := selectedModelId v; engine := engine v;
       engineStatus := engineStatus v; loadProgress := loadProgress v;
       isLoadingModel := isLoadingModel v; systemRules := x;
       messages := messages v; userInput := userInput v;
       isStreaming := isStreaming v; temperature := temperature v;
       maxTokens := maxTokens v |}).

(** [setMessages] with a value.  The effect of lines 65-67 copies the new
    array into [conversationRef.current] once the update is committed, before
    any later event is handled; the two writes are one step here. *)
Definition setMessages (x : list ChatMessage) (s : State) : State :=
  {| view :=
       {| selectedModelId := selectedModelId s; engine := engine s;
          engineStatus := engineStatus s; loadProgress := loadProgress s;
          isLoadingModel := isLoadingModel s; systemRules := systemRules s;
          messages := x; userInput := userInput s;
          isStreaming := isStreaming s; temperature := temperature s;
          maxTokens := maxTokens s |};
     conversationRef := x;
     loads := loads s; effectCleanup := effectCleanup s; gens := gens s |}.

(** [setMessages] with an updater function, applied to the current array. *)
Definition updateMessages
    (f : list ChatMessage → list ChatMessage) (s : State) : State :=
  setMessages (f (messages s)) s.

Definition setUserInput (x : jsstring) : State → State :=
  with_view (λ v,
    {| selectedModelId := selectedModelId v; engine := engine v;
       engineStatus := engineStatus v; loadProgress := loadProgress v;
       isLoadingModel := isLoadingModel v; systemRules := systemRules v;
       messages := messages v; userInput := x;
       isStreaming := isStreaming v; temperature := temperature v;
       maxTokens := maxTokens v |}).

Definition setIsStreaming (x : bool) : State → State :=
  with_view (λ v,
    {| selectedModelId := selectedModelId v; engine := engine v;
       engineStatus := engineStatus v; loadProgress := loadProgress v;
       isLoadingModel := isLoadingModel v; systemRules := systemRules v;
       messages := messages v; userInput := userInput v;
       isStreaming := x; temperature := temperature v;
       maxTokens := maxTokens v |}).

Definition setTemperature (x : Z) : State → State :=
  with_view (λ v,
    {| selectedModelId := selectedModelId v; engine := engine v;
       engineStatus := engineStatus v; loadProgress := loadProgress v;
       isLoadingModel := isLoadingModel v; systemRules := systemRules v;
       messages := messages v; userInput := userInput v;
       isStreaming := isStreaming v; temperature := x;
       maxTokens := maxTokens v |}).

Definition setMaxTokens (x : Z) : State → State :=
  with_view (λ v,
    {| selectedModelId := selectedModelId v; engine := engine v;
       engineStatus := engineStatus v; loadProgress := loadProgress v;
       isLoadingModel := isLoadingModel v; systemRules := systemRules v;
       messages := messages v; userInput := userInput v;
       isStreaming := isStreaming v; temperature := temperature v;
       maxTokens := x |}).

(** ** The component's code *)

(** The updater passed to [setMessages] at lines 151-158, 163-170 and
    173-183: copy the array and, when its last element is an assistant
    message, replace that element. *)
Definition overwriteLast (c : jsstring) (prev : list ChatMessage)
    : list ChatMessage :=
  let next := prev in
  match last next with
  | Some {| role := assistant |} =>
      <[length next - 1 := {| role := assistant; content := c |}]> next
  | _ => next
  end.

(** [activeSystemPrompt] (lines 118-121). *)
Definition activeSystemPrompt (s : State) : jsstring :=
  let trimmed := trim (systemRules s) in
  if nonempty trimmed then trimmed else DEFAULT_RULES.

(** [canSend] (lines 123-124). *)
Definition canSend (s : State) : bool :=
  bool_decide (engine s ≠ None) && negb (isStreaming s)
  && nonempty (trim (userInput s)) && negb (isLoadingModel s).

(** [handleSend] up to its first [await] (lines 126-145): the guards, the two
    appended messages, and the completion request.  The rest of the function
    is a new task in [gens]. *)
Definition handleSend (s : State) : State :=
  match engine s with
  | None => s
  | Some eng =>
      let prompt := trim (userInput s) in
      if nonempty prompt then
        let userMessage := {| role := user; content := prompt |} in
        let history := conversationRef s ++ [userMessage] in
        let assistantPlaceholder := {| role := assistant; content := [] |} in
        let request :=
          {| req_stream := true;
             req_messages :=
               {| api_role := system; api_content := activeSystemPrompt s |}
               :: map api_of history;
             req_temperature_tenths := temperature s;
             req_max_tokens := maxTokens s |} in
        let task :=
          {| gen_engine := eng; gen_request := request;
             aggregate := []; stage := AwaitStream |} in
        with_gens (λ g, g ++ [task])
          (setIsStreaming true
            (setMessages (history ++ [assistantPlaceholder])
              (setUserInput [] s)))
      else s
  end.

(** A submission from the page: the Enter key handler (line 379) calls
    [handleSend] only if [canSend], and the Send button (lines 392-393) is
    disabled unless [canSend]. *)
Definition submit (s : State) : State :=
  if canSend s then handleSend s else s.

(** [handleReset] (lines 189-194). *)
Definition handleReset (s : State) : State :=
  setEngineStatus
    (str "Conversation cleared. You can adjust rules and start again.")
    (setMessages [] s).

(** The catch block of [handleSend] (lines 172-183), with the text that
    [error instanceof Error ? error.message : String(error)] evaluates to. *)
Definition errorMarker (err : jsstring) : jsstring :=
  warning_sign ++ str " " ++ err.

Definition set_stage (st : Stage) (t : GenTask) : GenTask :=
  {| gen_engine := gen_engine t; gen_request := gen_request t;
     aggregate := aggregate t; stage := st |}.

Definition set_aggregate (a : jsstring) (t : GenTask) : GenTask :=
  {| gen_engine := gen_engine t; gen_request := gen_request t;
     aggregate := a; stage := stage t |}.

(** The finally block of [handleSend] (lines 184-186) ends the task. *)
Definition finishGen (g : nat) (s : State) : State :=
  with_gens (alter (set_stage Finished) g) (setIsStreaming false s).

(** The promise of [engine.chat.completions.create] resolves. *)
Definition streamOpened (g : nat) (s : State) : State :=
  match gens s !! g with
  | Some {| stage := AwaitStream |} =>
      with_gens (alter (set_stage Streaming) g) s
  | _ => s
  end.

(** One iteration of the for-await loop (lines 148-159); [delta] is
    [chunk.choices[0]?.delta.content], [None] when it is null or undefined. *)
Definition streamChunk (g : nat) (delta : option jsstring) (s : State)
    : State :=
  match gens s !! g with
  | Some ({| stage := Streaming |} as t) =>
      let aggregate := aggregate t ++ default [] delta in
      let snapshot := aggregate in
      updateMessages (overwriteLast snapshot)
        (with_gens (alter (set_aggregate aggregate) g) s)
  | _ => s
  end.

(** The stream ends; the task calls [engine.getMessage()] (line 161). *)
Definition streamEnd (g : nat) (s : State) : State :=
  match gens s !! g with
  | Some {| stage := Streaming |} =>
      with_gens (alter (set_stage AwaitFinal) g) s
  | _ => s
  end.

(** [engine.getMessage()] resolves (lines 161-171), then the finally block.
    [getMessage] is typed to return a string, so of the test
    [typeof finalReply === "string" && finalReply.length > 0] the second
    conjunct decides. *)
Definition finalReply (g : nat) (reply : jsstring) (s : State) : State :=
  match gens s !! g with
  | Some {| stage := AwaitFinal |} =>
      finishGen g
        (if nonempty reply
         then updateMessages (overwriteLast reply) s
         else s)
  | _ => s
  end.

(** Any of the three awaits throws (lines 172-186). *)
Definition genError (g : nat) (err : jsstring) (s : State) : State :=
  match gens s !! g with
  | Some {| stage := Finished |} | None => s
  | Some _ => finishGen g (updateMessages (overwriteLast (errorMarker err)) s)
  end.

(** *** The model-loading effect (lines 69-112) *)

Definition set_cancelled (t : LoadTask) : LoadTask :=
  {| load_model_id := load_model_id t; load_record := load_record t;
     cancelled := true; load_settled := load_settled t |}.

Definition set_settled (t : LoadTask) : LoadTask :=
  {| load_model_id := load_model_id t; load_record := load_record t;
     cancelled := cancelled t; load_settled := true |}.

(** The cleanup function returned by the effect (lines 109-111). *)
Definition runCleanup (s : State) : State :=
  match effectCleanup s with
  | Some k => with_cleanup None (with_loads (alter set_cancelled k) s)
  | None => s
  end.

Section Catalog.

(** [llamaModels] (lines 34-36), a filter of the engine library's catalog. *)
Variable llamaModels : list ModelRecord.

(** [init] up to its [await] (lines 73-91). *)
Definition init (s : State) : State :=
  let s := setIsLoadingModel true s in
  let s := setEngine None s in
  let s := setMessages [] s in
  let s := setEngineStatus
             (str "Loading " ++ selectedModelId s ++ [ellipsis]) s in
  let s := setLoadProgress None s in
  let record :=
    List.find (λ model, bool_decide (model_id model = selectedModelId s))
      llamaModels in
  with_loads
    (λ l, l ++ [ {| load_model_id := selectedModelId s; load_record := record;
                    cancelled := false; load_settled := false |} ]) s.

(** The effect body: nothing for an empty id, otherwise [init()] and the
    cleanup function that sets this run's [cancelled]. *)
Definition modelEffect (s : State) : State :=
  if nonempty (selectedModelId s)
  then with_cleanup (Some (length (loads s))) (init s)
  else s.

(** The [onChange] handler of the model selector (line 226).  Setting the
    state to its current value does not render again; otherwise React runs
    the previous effect's cleanup and then the effect. *)
Definition selectModel (id : jsstring) (s : State) : State :=
  if bool_decide (id = selectedModelId s) then s
  else modelEffect (runCleanup (setSelectedModelId id s)).

(** [initProgressCallback] (lines 86-90) of run [k]; it tests [cancelled]
    and nothing else. *)
Definition loadProgressed (k : nat) (progress : InitProgressReport)
    (s : State) : State :=
  match loads s !! k with
  | Some {| cancelled := c |} =>
      if c then s
      else
        let status := formatProgress (Some progress) in
        setEngineStatus
          (if nonempty status then status
           else str "Preparing model" ++ [ellipsis])
          (setLoadProgress (Some progress) s)
  | _ => s
  end.

(** [CreateMLCEngine] of run [k] resolves (lines 92-96 and 104-106). *)
Definition loadResolved (k : nat) (s : State) : State :=
  match loads s !! k with
  | Some ({| load_settled := false |} as t) =>
      let s := with_loads (alter set_settled k) s in
      if cancelled t then s
      else
        let instance :=
          {| engine_model := load_model_id t; engine_attempt := k |} in
        setIsLoadingModel false
          (setEngineStatus
            (str "Model ready. Define your custom rules and start chatting.")
            (setEngine (Some instance) s))
  | _ => s
  end.

(** [CreateMLCEngine] of run [k] rejects (lines 97-106); [err] is the text of
    [error instanceof Error ? error.message : String(error)]. *)
Definition loadRejected (k : nat) (err : jsstring) (s : State) : State :=
  match loads s !! k with
  | Some ({| load_settled := false |} as t) =>
      let s := with_loads (alter set_settled k) s in
      if cancelled t then s
      else
        setIsLoadingModel false
          (setEngineStatus (str "Failed to load model: " ++ err) s)
  | _ => s
  end.

(** *** Events and runs *)

Inductive Event :=
  | SelectModel (id : jsstring)
  | EngineProgress (k : nat) (progress : InitProgressReport)
  | EngineCreated (k : nat)
  | EngineFailed (k : nat) (err : jsstring)
  | EditRules (rules : jsstring)
  | RestoreRules
  | SlideTemperature (t : Z)
  | SlideMaxTokens (n : Z)
  | TypeInput (input : jsstring)
  | Submit
  | PressReset
  | StreamOpened (g : nat)
  | StreamChunk (g : nat) (delta : option jsstring)
  | StreamEnd (g : nat)
  | FinalReply (g : nat) (reply : jsstring)
  | GenError (g : nat) (err : jsstring).

(** The prompt textarea is disabled (line 387) while there is no engine, a
    reply is streaming or a model is loading. *)
Definition inputDisabled (s : State) : bool :=
  bool_decide (engine s = None) || isStreaming s || isLoadingModel s.

Definition step (e : Event) (s : State) : State :=
  match e with
  | SelectModel id => selectModel id s
  | EngineProgress k p => loadProgressed k p s
  | EngineCreated k => loadResolved k s
  | EngineFailed k err => loadRejected k err s
  | EditRules rules => setSystemRules rules s
  | RestoreRules => setSystemRules DEFAULT_RULES s
  | SlideTemperature t => setTemperature t s
  | SlideMaxTokens n => setMaxTokens n s
  | TypeInput input => if inputDisabled s then s else setUserInput input s
  | Submit => submit s
  | PressReset => handleReset s
  | StreamOpened g => streamOpened g s
  | StreamChunk g delta => streamChunk g delta s
  | StreamEnd g => streamEnd g s
  | FinalReply g reply => finalReply g reply s
  | GenError g err => genError g err s
  end.

Definition run (evs : list Event) (s : State) : State :=
  foldl (λ s e, step e s) s evs.

(** The first render (lines 45-63). *)
Definition firstRender : State :=
  {| view :=
       {| selectedModelId :=
            match llamaModels with
            | m :: _ => model_id m
            | [] => []
            end;
          engine := None;
          engineStatus := str "Select a model to initialize your assistant.";
          loadProgress := None;
          isLoadingModel := false;
          systemRules := DEFAULT_RULES;
          messages := [];
          userInput := [];
          isStreaming := false;
          temperature := 6;
          maxTokens := 512 |};
     conversationRef := [];
     loads := []; effectCleanup := None; gens := [] |}.

(** The mounted component: the first render followed by its effect. *)
Definition mounted : State := modelEffect firstRender.

Definition reachable (s : State) : Prop :=
  ∃ evs, s = run evs mounted.

End Catalog.

(** Strings of white space. *)
Definition white (s : jsstring) : Prop :=
  Forall (λ c, is_white_space c = true) s.

(** ** Invariants of the reachable states *)

(** A call of [handleSend] that has not reached the end of its finally
    block. *)
Definition running (t : GenTask) : bool :=
  match stage t with
  | Finished => false
  | _ => true
  end.

Definition in_flight (g : nat) (s : State) : Prop :=
  ∃ t, gens s !! g = Some t ∧ running t = true.

Definition pending (l : list GenTask) : nat :=
  length (filter (λ t, running t = true) l).

(** [isStreaming] is a lock: it is true exactly while one call of
    [handleSend] is running, and no two calls run at once. *)
Definition streaming_lock (s : State) : Prop :=
  pending (gens s) = if isStreaming s then 1 else 0.

(** While a reply is streaming the conversation is empty or ends with an
    assistant message. *)
Definition placeholder_last (s : State) : Prop :=
  isStreaming s = true →
  messages s = [] ∨
  ∃ pre c, messages s = pre ++ [ {| role := assistant; content := c |} ].

Definition ref_synced (s : State) : Prop :=
  conversationRef s = messages s.

(** The runs of [init]: only the run whose cleanup is registered can have
    [cancelled] false, that run is the last one and loads the selected model,
    and a published engine comes from the last run. *)
Record loads_ok (s : State) : Prop := {
  uncancelled_registered :
    ∀ k t, loads s !! k = Some t → cancelled t = false →
           effectCleanup s = Some k;
  registered_last :
    ∀ k, effectCleanup s = Some k → S k = length (loads s);
  registered_selected :
    ∀ k t, effectCleanup s = Some k → loads s !! k = Some t →
           load_model_id t = selectedModelId s;
  engine_last :
    ∀ e, engine s = Some e → S (engine_attempt e) = length (loads s);
  engine_selected :
    ∀ e, engine s = Some e → selectedModelId s ≠ [] →
         engine_model e = selectedModelId s ∧
         effectCleanup s = Some (engine_attempt e)
}.

Record invariant (s : State) : Prop := {
  inv_lock : streaming_lock s;
  inv_placeholder : placeholder_last s;
  inv_ref : ref_synced s;
  inv_loads : loads_ok s
}.

(** The runs of [init] after the cleanup of the registered one. *)
Definition cancel_registered (s : State) : list LoadTask :=
  match effectCleanup s with
  | Some k => alter set_cancelled k (loads s)
  | None => loads s
  end.

(** The value of [aggregate] after the for-await loop has consumed the
    chunks with these [delta.content]s. *)
Definition streamed (chunks : list (option jsstring)) : jsstring :=
  foldl (λ aggregate delta, aggregate ++ default [] delta) [] chunks.

(** While no engine is published the conversation is empty. *)
Definition loading_empty (s : State) : Prop :=
  engine s = None → messages s = [].

(** The state of a generation inside the for-await loop: the task's
    [aggregate] and the conversation, whose last message holds it. *)
Definition streaming_with (g : nat) (a : jsstring) (pre : list ChatMessage)
    (s : State) : Prop :=
  (∃ t, gens s !! g = Some t ∧ stage t = Streaming ∧ aggregate t = a) ∧
  messages s = pre ++ [ {| role := assistant; content := a |} ].

(** ** Test fixtures *)

(** A catalog of two models. *)
Definition catalogAB : list ModelRecord :=
  [ {| model_id := str "Llama-A" |}; {| model_id := str "Llama-B" |} ].

(** Model A is loaded and "Hello" is typed into the prompt. *)
Definition readyHello : State :=
  run catalogAB [EngineCreated 0; TypeInput (str "Hello")] (mounted catalogAB).

(** "Hello" was submitted and the reply streamed "Hi" so far. *)
Definition streamingHi : State :=
  run catalogAB [Submit; StreamOpened 0; StreamChunk 0 (Some (str "Hi"))]
    readyHello.

(** Model A is loaded and the prompt holds white space only: a space, a
    no-break space, a tab, a line feed and an ideographic space. *)
Definition readyBlank : State :=
  run catalogAB [EngineCreated 0; TypeInput [0x20; 0xA0; 0x09; 0x0A; 0x3000]%N]
    (mounted catalogAB).

(** The stream of [streamingHi] has ended; [engine.getMessage()] is pending. *)
Definition awaitingFinalHi : State :=
  run catalogAB [StreamEnd 0] streamingHi.

(** Model A is loaded, "Hello" is typed, and the rulebook holds " Be brief. "
    between line breaks. *)
Definition readyBrief : State :=
  run catalogAB
    [EditRules ([line_feed] ++ str " Be brief. " ++ [line_feed])]
    readyHello.

(** Model B was selected while model A was loading. *)
Definition switchedToB : State :=
  run catalogAB [SelectModel (str "Llama-B")] (mounted catalogAB).

(** The generation of "Hello" from submission to the final message. *)
Definition helloGeneration (reply : jsstring) : list Event :=
  [Submit; StreamOpened 0; StreamChunk 0 (Some (str "Hi"));
   StreamChunk 0 (Some (str " there")); StreamEnd 0; FinalReply 0 reply].

(** The same generation with the conversation reset during the stream. *)
Definition helloGenerationReset (reply : jsstring) : list Event :=
  [Submit; StreamOpened 0; StreamChunk 0 (Some (str "Hi")); PressReset;
   StreamChunk 0 (Some (str " there")); StreamEnd 0; FinalReply 0 reply].

(** ** Further invariants *)

(** The conversation that a list of turns makes: for each turn the user's
    prompt, then the assistant's reply. *)
Fixpoint transcript (turns : list (jsstring * jsstring)) : list ChatMessage :=
  match turns with
  | [] => []
  | (prompt, reply) :: rest =>
      {| role := user; content := prompt |}
      :: {| role := assistant; content := reply |}
      :: transcript rest
  end.

(** A prompt as [handleSend] stores it: not empty, no white space at either
    end. *)
Definition trimmed_prompt (p : jsstring) : Prop :=
  p ≠ [] ∧
  ∀ c, head p = Some c ∨ last p = Some c → is_white_space c = false.

(** The run of [init] [k] is the current one and its promise has not
    settled. *)
Definition load_pending (k : nat) (s : State) : Prop :=
  ∃ t, loads s !! k = Some t ∧ cancelled t = false ∧ load_settled t = false.

(** No run of [init] can still publish an engine. *)
Definition no_load_pending (s : State) : Prop :=
  ∀ k, ¬ load_pending k s.

(** Events other than the selection of a model different from [id]. *)
Definition keeps_model (id : jsstring) (e : Event) : Prop :=
  match e with
  | SelectModel id' => id' = id
  | _ => True
  end.

(** The events that empty the conversation. *)
Definition clears (e : Event) : bool :=
  match e with
  | SelectModel _ | PressReset => true
  | _ => false
  end.

(** A completion request as [handleSend] builds it: streaming, one system
    message with a non-empty prompt first, then chat messages, the last of
    them a user message with a non-empty prompt. *)
Definition request_shape (r : CompletionRequest) : Prop :=
  req_stream r = true ∧
  ∃ sys history prompt,
    req_messages r
    = {| api_role := system; api_content := sys |}
      :: map api_of (history ++ [ {| role := user; content := prompt |} ]) ∧
    sys ≠ [] ∧ trimmed_prompt prompt.

(** The conversation is a transcript of turns with trimmed prompts. *)
Definition turns_ok (s : State) : Prop :=
  ∃ turns, messages s = transcript turns ∧ Forall trimmed_prompt turns.*1.

(** The trailing message holds what generation [g] has streamed so far,
    unless the conversation was emptied. *)
Definition shows_aggregate (s : State) : Prop :=
  ∀ g t, gens s !! g = Some t → running t = true →
    messages s = [] ∨
    ∃ pre, messages s
           = pre ++ [ {| role := assistant; content := aggregate t |} ].

Definition requests_ok (s : State) : Prop :=
  ∀ g t, gens s !! g = Some t → request_shape (gen_request t).

(** While the current run of [init] is pending there is no engine and the
    loading flag is set. *)
Definition loading_shown (s : State) : Prop :=
  ∀ k, load_pending k s → engine s = None ∧ isLoadingModel s = true.

(** *** Further fixtures *)

(** The generation of "Hello" has completed with the final text
    "Hi there!". *)
Definition finishedHello : State :=
  run catalogAB (helloGeneration (str "Hi there!")) readyHello.

(** The load of model A has failed. *)
Definition failedA : State :=
  run catalogAB [EngineFailed 0 (str "network")] (mounted catalogAB).

(** A progress report of 42% with the text "Fetching". *)
Definition progress42 : InitProgressReport :=
  {| progress_pct := Some (str "42"); text := Some (str "Fetching") |}.

(** *** Runs that keep the conversation *)

(** The event empties the conversation in this state: the reset button, or
    the selection of a non-empty id other than the selected one. *)
Definition clearing (e : Event) (s : State) : bool :=
  match e with
  | PressReset => true
  | SelectModel id =>
      nonempty id && negb (bool_decide (id = selectedModelId s))
  | _ => false
  end.

(** The chunk that the event delivers to the for-await loop of generation
    [g], if that loop is running. *)
Definition applied_chunk (g : nat) (e : Event) (s : State)
    : list (option jsstring) :=
  match e with
  | StreamChunk g' delta =>
      if bool_decide (g' = g) then
        match gens s !! g with
        | Some {| stage := Streaming |} => [delta]
        | _ => []
        end
      else []
  | _ => []
  end.

Section Interleaving.

Variable llamaModels : list ModelRecord.

(** No event of the run empties the conversation. *)
Fixpoint no_clearing (evs : list Event) (s : State) : bool :=
  match evs with
  | [] => true
  | e :: evs =>
      negb (clearing e s) && no_clearing evs (step llamaModels e s)
  end.

(** The chunks that the run delivers to the loop of generation [g]. *)
Fixpoint applied_chunks (g : nat) (evs : list Event) (s : State)
    : list (option jsstring) :=
  match evs with
  | [] => []
  | e :: evs =>
      applied_chunk g e s ++ applied_chunks g evs (step llamaModels e s)
  end.

End Interleaving.

(** [aggregate] after the loop has consumed further chunks. *)
Definition extended (a : jsstring) (chunks : list (option jsstring))
    : jsstring :=
  foldl (λ aggregate delta, aggregate ++ default [] delta) a chunks.

(** Generation [g] runs with aggregate [a] and the conversation is [pre]
    followed by the assistant message that holds [a]. *)
Definition turn_open (g : nat) (pre : list ChatMessage) (a : jsstring)
    (s : State) : Prop :=
  streaming_lock s ∧
  (∃ t, gens s !! g = Some t ∧ running t = true ∧ aggregate t = a) ∧
  messages s = pre ++ [ {| role := assistant; content := a |} ].

(** The generation of "Hello" up to the end of its stream, with other events
    in between: rules edited, sliders moved, a progress report, the selected
    model selected again, a second press of Enter. *)
Definition helloInterleaved : list Event :=
  [StreamOpened 0; EditRules (str "Be brief."); StreamChunk 0 (Some (str "Hi"));
   SlideTemperature 3; EngineProgress 0 progress42;
   SelectModel (str "Llama-A"); Submit; StreamChunk 0 None;
   SlideMaxTokens 1024; StreamChunk 0 (Some (str " there")); StreamEnd 0].

(** ** Tactics *)

Ltac proj :=
  cbn [view conversationRef loads effectCleanup gens selectedModelId engine
       engineStatus loadProgress isLoadingModel systemRules messages
       userInput isStreaming temperature maxTokens] in *.

Ltac unfold_setters :=
  unfold updateMessages, setSelectedModelId, setEngine, setEngineStatus,
    setLoadProgress, setIsLoadingModel, setSystemRules, setMessages,
    setUserInput, setIsStreaming, setTemperature, setMaxTokens,
    with_view, with_loads, with_gens, with_cleanup in *; proj.

Ltac unfold_handlers :=
  unfold loadProgressed, loadResolved, loadRejected, inputDisabled,
    handleSend, handleReset, streamOpened, streamChunk, streamEnd,
    finalReply, genError, finishGen in *.

Ltac crush_step :=
  unfold_handlers; unfold_setters;
  repeat (case_match; unfold_setters; simplify_eq).

(** ** Properties of the strings *)

Lemma nonempty_false (s : jsstring) : nonempty s = false ↔ s = [].
Proof. destruct s; simpl; split; congruence. Qed.

Lemma nonempty_true (s : jsstring) : nonempty s = true ↔ s ≠ [].
Proof. destruct s; simpl; split; congruence. Qed.

Lemma DEFAULT_RULES_nonempty : DEFAULT_RULES ≠ [].
Proof. apply nonempty_true. reflexivity. Qed.

Lemma trimStart_suffix (s : jsstring) :
  ∃ l, s = l ++ trimStart s ∧ white l.
Proof.
  induction s as [|c s (l & Hl & Hwhite)]; simpl.
  - exists []. by split; [|constructor].
  - destruct (is_white_space c) eqn:Hc.
    + exists (c :: l). split; [simpl; by f_equal|by constructor].
    + exists []. by split; [|constructor].
Qed.

Lemma trimStart_head (s : jsstring) (c : N) (rest : jsstring) :
  trimStart s = c :: rest → is_white_space c = false.
Proof.
  induction s as [|c' s IH]; simpl; [done|].
  destruct (is_white_space c') eqn:Hc'; [done|]. by intros [= -> _].
Qed.

Lemma trimEnd_prefix (s : jsstring) :
  ∃ r, s = trimEnd s ++ r ∧ white r.
Proof.
  destruct (trimStart_suffix (reverse s)) as (l & Hl & Hwhite).
  exists (reverse l). split; [|by apply Forall_reverse].
  unfold trimEnd. by rewrite <- reverse_app, <- Hl, reverse_involutive.
Qed.

(** [trim] removes white space at both ends, and nothing else. *)
Lemma trim_decompose (s : jsstring) :
  ∃ l r, s = l ++ trim s ++ r ∧ white l ∧ white r.
Proof.
  destruct (trimStart_suffix s) as (l & Hl & Hwhite_l).
  destruct (trimEnd_prefix (trimStart s)) as (r & Hr & Hwhite_r).
  exists l, r. unfold trim. by rewrite <- Hr.
Qed.

Lemma trim_head (s : jsstring) (c : N) :
  head (trim s) = Some c → is_white_space c = false.
Proof.
  unfold trim, trimEnd. rewrite head_reverse. intros Hlast.
  destruct (trimStart_suffix (reverse (trimStart s))) as (l & Hl & _).
  assert (last (reverse (trimStart s)) = Some c) as Hc
    by (by rewrite Hl, last_app, Hlast).
  rewrite last_reverse in Hc. apply head_Some in Hc as [rest Hrest].
  by apply (trimStart_head s c rest).
Qed.

Lemma trim_last (s : jsstring) (c : N) :
  last (trim s) = Some c → is_white_space c = false.
Proof.
  unfold trim, trimEnd. rewrite last_reverse.
  intros [rest Hrest]%head_Some. by apply (trimStart_head _ c rest) in Hrest.
Qed.

(** ** The conversation writes of a generation *)

Lemma overwriteLast_nil (c : jsstring) : overwriteLast c [] = [].
Proof. reflexivity. Qed.

Lemma overwriteLast_snoc (c : jsstring) (pre : list ChatMessage)
    (m : ChatMessage) :
  overwriteLast c (pre ++ [m]) =
  pre ++ [match role m with
          | assistant => {| role := assistant; content := c |}
          | user => m
          end].
Proof.
  unfold overwriteLast. rewrite last_snoc.
  destruct m as [[] body]; simpl; [done|].
  rewrite length_app. simpl.
  replace (length pre + 1 - 1) with (length pre + 0) by lia.
  by rewrite insert_app_r.
Qed.

Lemma overwriteLast_length (c : jsstring) (prev : list ChatMessage) :
  length (overwriteLast c prev) = length prev.
Proof.
  unfold overwriteLast. destruct (last prev) as [[[] ?]|]; try done.
  apply length_insert.
Qed.

(** What a generation step does to [messages]: nothing, or one
    [overwriteLast]. *)
Lemma streamChunk_messages (g : nat) (delta : option jsstring) (s : State) :
  messages (streamChunk g delta s) = messages s ∨
  ∃ c, messages (streamChunk g delta s) = overwriteLast c (messages s).
Proof.
  unfold streamChunk. destruct (gens s !! g) as [[? ? ? []]|]; eauto.
Qed.

Lemma finalReply_messages (g : nat) (reply : jsstring) (s : State) :
  messages (finalReply g reply s) = messages s ∨
  ∃ c, messages (finalReply g reply s) = overwriteLast c (messages s).
Proof.
  unfold finalReply. destruct (gens s !! g) as [[? ? ? []]|]; eauto.
  destruct (nonempty reply); eauto.
Qed.

Lemma genError_messages (g : nat) (err : jsstring) (s : State) :
  messages (genError g err s) = messages s ∨
  ∃ c, messages (genError g err s) = overwriteLast c (messages s).
Proof.
  unfold genError. destruct (gens s !! g) as [[? ? ? []]|]; eauto.
Qed.

Lemma write_frame (prev next pre : list ChatMessage) (m : ChatMessage) :
  prev = pre ++ [m] →
  next = prev ∨ (∃ c, next = overwriteLast c prev) →
  next = pre ++ [m] ∨
  (role m = assistant ∧
   ∃ c, next = pre ++ [ {| role := assistant; content := c |} ]).
Proof.
  intros -> [->|[c ->]]; [by left|].
  rewrite overwriteLast_snoc. destruct (role m); eauto.
Qed.

(** C9. Every conversation write of a generation (a chunk application, the
    final overwrite, the error overwrite) leaves an empty conversation
    empty, and in a non-empty one leaves all messages before the last one as
    they are, and the last one as it is too unless its role is assistant, in
    which case it may replace it by an assistant message. *)
Theorem generation_writes_frame (s : State) (g : nat)
    (delta : option jsstring) (reply err : jsstring) (s' : State) :
  s' ∈ [streamChunk g delta s; finalReply g reply s; genError g err s] →
  (messages s = [] → messages s' = []) ∧
  (∀ pre m, messages s = pre ++ [m] →
     messages s' = pre ++ [m] ∨
     (role m = assistant ∧
      ∃ c, messages s' = pre ++ [ {| role := assistant; content := c |} ])).
Proof.
  intros Hs'.
  assert (messages s' = messages s ∨
          ∃ c, messages s' = overwriteLast c (messages s)) as Hwrite.
  { rewrite !elem_of_cons, elem_of_nil in Hs'.
    destruct Hs' as [->|[->|[->|[]]]].
    - apply streamChunk_messages.
    - apply finalReply_messages.
    - apply genError_messages. }
  split.
  - intros Hempty. rewrite Hempty in Hwrite.
    by destruct Hwrite as [->|[c ->]].
  - intros pre m Hprev. by apply (write_frame (messages s)).
Qed.

Lemma generation_writes_frame_witness :
  let s' := streamChunk 0 (Some (str " there")) streamingHi in
  let pre := [ {| role := user; content := str "Hello" |} ] in
  let m := {| role := assistant; content := str "Hi" |} in
  messages streamingHi = pre ++ [m] ∧
  (messages s' = pre ++ [m] ∨
   (role m = assistant ∧
    ∃ c, messages s' = pre ++ [ {| role := assistant; content := c |} ])) ∧
  messages (streamChunk 0 (Some (str " there")) (handleReset streamingHi))
  = [].
Proof.
  intros s' pre m. split; [vm_compute; reflexivity|]. split.
  - apply (generation_writes_frame streamingHi 0 (Some (str " there")) [] []
             s'); [apply list_elem_of_here|vm_compute; reflexivity].
  - apply (generation_writes_frame (handleReset streamingHi) 0
             (Some (str " there")) [] []);
      [apply list_elem_of_here|vm_compute; reflexivity].
Defined.

(** ** Submitting *)

(** What [handleSend] does once past its guards. *)
Lemma handleSend_sends (s : State) (eng : Engine) :
  engine s = Some eng → trim (userInput s) ≠ [] →
  handleSend s =
  {| view :=
       {| selectedModelId := selectedModelId s; engine := engine s;
          engineStatus := engineStatus s; loadProgress := loadProgress s;
          isLoadingModel := isLoadingModel s; systemRules := systemRules s;
          messages :=
            (conversationRef s
             ++ [ {| role := user; content := trim (userInput s) |} ])
            ++ [ {| role := assistant; content := [] |} ];
          userInput := [];
          isStreaming := true; temperature := temperature s;
          maxTokens := maxTokens s |};
     conversationRef :=
       (conversationRef s
        ++ [ {| role := user; content := trim (userInput s) |} ])
       ++ [ {| role := assistant; content := [] |} ];
     loads := loads s;
     effectCleanup := effectCleanup s;
     gens :=
       gens s
       ++ [ {| gen_engine := eng;
               gen_request :=
                 {| req_stream := true;
                    req_messages :=
                      {| api_role := system;
                         api_content := activeSystemPrompt s |}
                      :: map api_of
                           (conversationRef s
                            ++ [ {| role := user;
                                    content := trim (userInput s) |} ]);
                    req_temperature_tenths := temperature s;
                    req_max_tokens := maxTokens s |};
               aggregate := []; stage := AwaitStream |} ] |}.
Proof.
  intros Heng Hprompt%nonempty_true.
  destruct s as [[] cr ls cl gs]; proj; subst. unfold handleSend; proj.
  by rewrite Hprompt.
Qed.

(** [handleSend] itself does not look at [isStreaming]; the guard against a
    second submission is [canSend], at its two call sites. *)
Remark handleSend_unguarded (s : State) (eng : Engine) :
  engine s = Some eng → trim (userInput s) ≠ [] →
  isStreaming (handleSend s) = true ∧
  length (gens (handleSend s)) = S (length (gens s)).
Proof.
  intros Heng Hprompt. rewrite (handleSend_sends s eng Heng Hprompt). proj.
  split; [done|]. rewrite length_app. simpl. lia.
Qed.

(** C10. The system prompt is the trimmed rulebook when that is not empty
    and the default rules otherwise, so it is never empty; trimming removes
    white space at both ends of the rulebook and nothing else; and the
    request that [handleSend] makes starts with a system message holding the
    system prompt, followed by the conversation and the new user message. *)
Theorem system_prompt_sent (s : State) :
  (trim (systemRules s) ≠ [] → activeSystemPrompt s = trim (systemRules s)) ∧
  (trim (systemRules s) = [] → activeSystemPrompt s = DEFAULT_RULES) ∧
  activeSystemPrompt s ≠ [] ∧
  (∃ l r, systemRules s = l ++ trim (systemRules s) ++ r ∧
          white l ∧ white r) ∧
  (∀ c, head (trim (systemRules s)) = Some c ∨
        last (trim (systemRules s)) = Some c → is_white_space c = false) ∧
  (∀ eng, engine s = Some eng → trim (userInput s) ≠ [] →
     ∃ t, gens (handleSend s) = gens s ++ [t] ∧
          req_messages (gen_request t)
          = {| api_role := system; api_content := activeSystemPrompt s |}
            :: map api_of
                 (conversationRef s
                  ++ [ {| role := user; content := trim (userInput s) |} ])).
Proof.
  unfold activeSystemPrompt. split_and!.
  - by intros ->%nonempty_true.
  - by intros ->%nonempty_false.
  - destruct (nonempty (trim (systemRules s))) eqn:Htrim.
    + by apply nonempty_true.
    + apply DEFAULT_RULES_nonempty.
  - apply trim_decompose.
  - intros c [Hc|Hc]; [by apply (trim_head (systemRules s))|].
    by apply (trim_last (systemRules s)).
  - intros eng Heng Hprompt.
    rewrite (handleSend_sends s eng Heng Hprompt). proj. by eexists.
Qed.

(** C8. A submission whose prompt is empty after trimming changes nothing:
    [handleSend] returns the state it was called in, and so does a submission
    from the page. *)
Theorem empty_prompt_rejected (s : State) :
  trim (userInput s) = [] → handleSend s = s ∧ submit s = s.
Proof.
  intros Hempty. unfold submit, canSend, handleSend. rewrite Hempty. simpl.
  rewrite andb_false_r. simpl. by destruct (engine s).
Qed.

Lemma empty_prompt_rejected_witness :
  trim (userInput readyBlank) = [] ∧ userInput readyBlank ≠ [] ∧
  handleSend readyBlank = readyBlank ∧ submit readyBlank = readyBlank.
Proof.
  split; [reflexivity|]. split; [discriminate|].
  apply empty_prompt_rejected. reflexivity.
Defined.

Lemma submit_streaming (s : State) :
  isStreaming s = true → submit s = s.
Proof.
  intros Hstreaming. unfold submit, canSend. rewrite Hstreaming. simpl.
  by rewrite andb_false_r.
Qed.

(** C4. A submission made while [isStreaming] is true changes nothing: the
    conversation, the generations started so far and every other part of the
    state are as before. *)
Theorem submit_while_streaming (s : State) :
  isStreaming s = true → submit s = s.
Proof. apply submit_streaming. Qed.

Lemma submit_while_streaming_witness :
  isStreaming streamingHi = true ∧ submit streamingHi = streamingHi.
Proof.
  split; [reflexivity|]. apply submit_while_streaming. reflexivity.
Defined.

(** ** Running generations *)

Lemma pending_app (l1 l2 : list GenTask) :
  pending (l1 ++ l2) = pending l1 + pending l2.
Proof. unfold pending. by rewrite filter_app, length_app. Qed.

Lemma pending_cons (t : GenTask) (l : list GenTask) :
  pending (t :: l) = (if running t then 1 else 0) + pending l.
Proof.
  unfold pending. rewrite filter_cons.
  destruct (running t); by case_decide.
Qed.

Lemma pending_alter (f : GenTask → GenTask) (l : list GenTask) (g : nat)
    (t : GenTask) :
  l !! g = Some t →
  pending (alter f g l) + (if running t then 1 else 0) =
  pending l + (if running (f t) then 1 else 0).
Proof.
  revert g. induction l as [|x l IH]; intros [|g] Hg; simplify_eq/=.
  - rewrite !pending_cons. lia.
  - rewrite !pending_cons. specialize (IH g Hg). lia.
Qed.

Lemma pending_positive (l : list GenTask) (g : nat) (t : GenTask) :
  l !! g = Some t → running t = true → 0 < pending l.
Proof.
  revert g. induction l as [|x l IH]; intros [|g] Hg Hrun; simplify_eq/=.
  - rewrite pending_cons, Hrun. lia.
  - rewrite pending_cons. specialize (IH g Hg Hrun). lia.
Qed.

Lemma in_flight_streaming (g : nat) (s : State) :
  streaming_lock s → in_flight g s → isStreaming s = true.
Proof.
  intros Hlock (t & Hg & Hrun). unfold streaming_lock in Hlock.
  pose proof (pending_positive _ _ _ Hg Hrun).
  destruct (isStreaming s); [done|lia].
Qed.


(** ** Preservation of the invariants *)

Lemma canSend_true (s : State) :
  canSend s = true →
  engine s ≠ None ∧ isStreaming s = false ∧
  trim (userInput s) ≠ [] ∧ isLoadingModel s = false.
Proof.
  unfold canSend. rewrite !andb_true_iff, !negb_true_iff, nonempty_true.
  rewrite bool_decide_eq_true. tauto.
Qed.

Lemma cancel_registered_length (s : State) :
  length (cancel_registered s) = length (loads s).
Proof.
  unfold cancel_registered. destruct (effectCleanup s); [|done].
  apply length_alter.
Qed.

Lemma cancel_registered_lookup (s : State) (k : nat) (t : LoadTask) :
  cancel_registered s !! k = Some t →
  ∃ t0, loads s !! k = Some t0 ∧
        (t = t0 ∧ effectCleanup s ≠ Some k ∨
         t = set_cancelled t0 ∧ effectCleanup s = Some k).
Proof.
  unfold cancel_registered. destruct (effectCleanup s) as [k'|]; [|by eauto].
  destruct (decide (k' = k)) as [->|Hne].
  - rewrite list_lookup_alter_eq. destruct (loads s !! k); naive_solver.
  - rewrite list_lookup_alter_ne by done. naive_solver.
Qed.

Lemma pending_alter_same (f : GenTask → GenTask) (l : list GenTask) (g : nat)
    (t : GenTask) :
  l !! g = Some t → running (f t) = running t →
  pending (alter f g l) = pending l.
Proof.
  intros Hg Hrun. pose proof (pending_alter f l g t Hg) as H.
  rewrite Hrun in H. lia.
Qed.

Lemma pending_alter_finish (f : GenTask → GenTask) (l : list GenTask)
    (g : nat) (t : GenTask) :
  l !! g = Some t → running t = true → running (f t) = false →
  S (pending (alter f g l)) = pending l.
Proof.
  intros Hg Hrun Hfin. pose proof (pending_alter f l g t Hg) as H.
  rewrite Hrun, Hfin in H. lia.
Qed.

Section Runs.

Variable llamaModels : list ModelRecord.

Lemma selectModel_same (s : State) :
  selectModel llamaModels (selectedModelId s) s = s.
Proof. unfold selectModel. by rewrite bool_decide_true. Qed.

Lemma selectModel_empty (s : State) :
  selectedModelId s ≠ [] →
  selectModel llamaModels [] s =
  {| view :=
       {| selectedModelId := []; engine := engine s;
          engineStatus := engineStatus s; loadProgress := loadProgress s;
          isLoadingModel := isLoadingModel s; systemRules := systemRules s;
          messages := messages s; userInput := userInput s;
          isStreaming := isStreaming s; temperature := temperature s;
          maxTokens := maxTokens s |};
     conversationRef := conversationRef s;
     loads := cancel_registered s;
     effectCleanup := None;
     gens := gens s |}.
Proof.
  intros Hne. unfold selectModel. rewrite bool_decide_false by done.
  unfold cancel_registered.
  destruct s as [[] cr ls [k|] gs]; reflexivity.
Qed.

Lemma selectModel_fresh (id : jsstring) (s : State) :
  id ≠ [] → id ≠ selectedModelId s →
  selectModel llamaModels id s =
  {| view :=
       {| selectedModelId := id; engine := None;
          engineStatus := str "Loading " ++ id ++ [ellipsis];
          loadProgress := None;
          isLoadingModel := true; systemRules := systemRules s;
          messages := []; userInput := userInput s;
          isStreaming := isStreaming s; temperature := temperature s;
          maxTokens := maxTokens s |};
     conversationRef := [];
     loads :=
       cancel_registered s
       ++ [ {| load_model_id := id;
               load_record :=
                 List.find (λ model, bool_decide (model_id model = id))
                   llamaModels;
               cancelled := false; load_settled := false |} ];
     effectCleanup := Some (length (loads s));
     gens := gens s |}.
Proof.
  intros Hid Hne. unfold selectModel. rewrite bool_decide_false by done.
  rewrite <- (cancel_registered_length s). unfold cancel_registered.
  apply nonempty_true in Hid.
  destruct s as [[] cr ls [k|] gs]; unfold modelEffect; cbn; rewrite Hid; reflexivity.
Qed.

Ltac select_cases id s :=
  destruct (decide (id = selectedModelId s)) as [->|?];
  [ rewrite selectModel_same
  | destruct (decide (id = [])) as [->|?];
    [ rewrite selectModel_empty by done
    | rewrite selectModel_fresh by done ] ].

Lemma step_lock (e : Event) (s : State) :
  streaming_lock s → streaming_lock (step llamaModels e s).
Proof.
  unfold streaming_lock. intros Hlock.
  destruct e; cbn [step].
  1: by select_cases id s.
  9: { unfold submit. destruct (canSend s) eqn:Hcan; [|done].
       apply canSend_true in Hcan as (_ & Hidle & _ & _).
       rewrite Hidle in Hlock.
       destruct s as [[] cr ls cl gs]; crush_step; try done.
       rewrite pending_app, pending_cons. unfold pending at 2. simpl. lia. }
  all: destruct s as [[] cr ls cl gs]; crush_step; try done.
  all: match goal with
       | H : ?l !! ?g = Some ?t |- context [alter ?f ?g ?l] =>
           pose proof (pending_positive l g t H eq_refl);
           first [ rewrite (pending_alter_same f l g t H eq_refl)
                 | pose proof (pending_alter_finish f l g t H eq_refl eq_refl) ]
       end.
  all: lia.
Qed.

Lemma overwriteLast_placeholder (c : jsstring) (prev : list ChatMessage) :
  (prev = [] ∨ ∃ pre c', prev = pre ++ [ {| role := assistant; content := c' |} ]) →
  overwriteLast c prev = [] ∨
  ∃ pre c', overwriteLast c prev
            = pre ++ [ {| role := assistant; content := c' |} ].
Proof.
  intros [->|(pre & c' & ->)]; [by left|right].
  rewrite overwriteLast_snoc. simpl. eauto.
Qed.

Lemma step_placeholder (e : Event) (s : State) :
  placeholder_last s → placeholder_last (step llamaModels e s).
Proof.
  unfold placeholder_last. intros Hlast.
  destruct e; cbn [step].
  1: by select_cases id s; proj; auto.
  9: { unfold submit. destruct (canSend s); [|done].
       destruct s as [[] cr ls cl gs]; crush_step; try done.
       intros _. right. by eexists _, _. }
  all: destruct s as [[] cr ls cl gs]; crush_step; try done; auto.
  all: intros ?; apply overwriteLast_placeholder; auto.
Qed.

Lemma step_ref (e : Event) (s : State) :
  ref_synced s → ref_synced (step llamaModels e s).
Proof.
  unfold ref_synced. intros Href.
  destruct e; cbn [step].
  1: by select_cases id s.
  9: unfold submit; destruct (canSend s); [|done].
  all: destruct s as [[] cr ls cl gs]; crush_step; done.
Qed.

Lemma cancel_registered_uncancelled (s : State) (k : nat) (t : LoadTask) :
  loads_ok s → cancel_registered s !! k = Some t → cancelled t = true.
Proof.
  intros Hok (t0 & Ht0 & [[-> Hk]|[-> Hk]])%cancel_registered_lookup; [|done].
  destruct (cancelled t0) eqn:Hc; [done|].
  destruct Hk. by apply (uncancelled_registered s Hok k t0).
Qed.

Lemma settled_lookup (ls : list LoadTask) (k k' : nat) (t : LoadTask) :
  alter set_settled k ls !! k' = Some t →
  ∃ t0, ls !! k' = Some t0 ∧ cancelled t = cancelled t0 ∧
        load_model_id t = load_model_id t0.
Proof.
  destruct (decide (k = k')) as [->|Hne].
  - rewrite list_lookup_alter_eq. destruct (ls !! k'); naive_solver.
  - rewrite list_lookup_alter_ne by done. naive_solver.
Qed.

Lemma step_loads (e : Event) (s : State) :
  loads_ok s → loads_ok (step llamaModels e s).
Proof.
  intros Hok. pose proof Hok as [H1 H2 H3 H4 H5].
  destruct e; cbn [step].
  1: { select_cases id s; [done| |].
       - split; proj; try done.
         + intros k t Hk Hc.
           apply (cancel_registered_uncancelled s k t Hok) in Hk. congruence.
         + intros e He. rewrite cancel_registered_length. auto.
       - split; proj; try done.
         + intros k t Hk Hc. apply lookup_app_Some in Hk as [Hk|[Hlen Hk]].
           * apply (cancel_registered_uncancelled s k t Hok) in Hk. congruence.
           * rewrite cancel_registered_length in Hlen, Hk.
             apply lookup_lt_Some in Hk. simpl in Hk. f_equal. lia.
         + intros k [= <-]. rewrite length_app, cancel_registered_length.
           simpl. lia.
         + intros k t [= <-] Hk.
           rewrite lookup_app_r in Hk by (rewrite cancel_registered_length; lia).
           rewrite cancel_registered_length, Nat.sub_diag in Hk.
           by simplify_eq/=. }
  9: unfold submit; destruct (canSend s); [|done].
  all: destruct s as [[] cr ls cl gs]; proj; crush_step; try (by split).
  all: split; proj; rewrite ?length_alter; try done.
  all: try (intros k' t' (t0 & Ht0 & Hc & Hm)%settled_lookup;
            rewrite ?Hc, ?Hm; eauto; fail).
  all: try (intros k' t' Hcl (t0 & Ht0 & Hc & Hm)%settled_lookup;
            rewrite ?Hc, ?Hm; eauto; fail).
  all: intros e [= <-]; simplify_eq/=;
       match goal with
       | Hk : ?l !! ?i = Some ?t |- _ =>
           pose proof (H1 i t Hk eq_refl) as Hcl;
           pose proof (H2 i Hcl); pose proof (H3 i t Hcl Hk)
       end; auto.
Qed.



Lemma step_invariant (e : Event) (s : State) :
  invariant s → invariant (step llamaModels e s).
Proof.
  intros [Hlock Hlast Href Hloads]. split.
  - by apply step_lock.
  - by apply step_placeholder.
  - by apply step_ref.
  - by apply step_loads.
Qed.

Lemma run_cons (e : Event) (evs : list Event) (s : State) :
  run llamaModels (e :: evs) s = run llamaModels evs (step llamaModels e s).
Proof. reflexivity. Qed.

Lemma run_app (evs1 evs2 : list Event) (s : State) :
  run llamaModels (evs1 ++ evs2) s
  = run llamaModels evs2 (run llamaModels evs1 s).
Proof. apply foldl_app. Qed.

Lemma run_invariant (evs : list Event) (s : State) :
  invariant s → invariant (run llamaModels evs s).
Proof.
  revert s. induction evs as [|e evs IH]; intros s Hs; [done|].
  rewrite run_cons. by apply IH, step_invariant.
Qed.

Lemma firstRender_invariant : invariant (firstRender llamaModels).
Proof. repeat split; try done; intros ? ?; by rewrite ?lookup_nil. Qed.

Lemma modelEffect_nonempty (s : State) :
  selectedModelId s ≠ [] →
  modelEffect llamaModels s =
  {| view :=
       {| selectedModelId := selectedModelId s; engine := None;
          engineStatus := str "Loading " ++ selectedModelId s ++ [ellipsis];
          loadProgress := None;
          isLoadingModel := true; systemRules := systemRules s;
          messages := []; userInput := userInput s;
          isStreaming := isStreaming s; temperature := temperature s;
          maxTokens := maxTokens s |};
     conversationRef := [];
     loads :=
       loads s
       ++ [ {| load_model_id := selectedModelId s;
               load_record :=
                 List.find
                   (λ model, bool_decide (model_id model = selectedModelId s))
                   llamaModels;
               cancelled := false; load_settled := false |} ];
     effectCleanup := Some (length (loads s));
     gens := gens s |}.
Proof.
  intros Hid%nonempty_true.
  destruct s as [[] cr ls cl gs]; unfold modelEffect; cbn in *.
  by rewrite Hid.
Qed.

Lemma mounted_invariant : invariant (mounted llamaModels).
Proof.
  unfold mounted.
  destruct (decide (selectedModelId (firstRender llamaModels) = []))
    as [Hid|Hid].
  - unfold modelEffect. rewrite Hid. apply firstRender_invariant.
  - rewrite modelEffect_nonempty by done.
    split; [done|done|done|].
    split; proj; try done.
    + intros [|k] t Hk _; [done|]. simpl in Hk. by rewrite lookup_nil in Hk.
    + by intros k [= <-].
    + by intros k t [= <-] [= <-].
Qed.

Lemma reachable_invariant (s : State) :
  reachable llamaModels s → invariant s.
Proof. intros [evs ->]. apply run_invariant, mounted_invariant. Qed.

(** *** While a model loads the conversation is empty *)

Lemma step_loading_empty (e : Event) (s : State) :
  loading_empty s → loading_empty (step llamaModels e s).
Proof.
  unfold loading_empty. intros Hs.
  destruct e; cbn [step].
  1: by select_cases id s.
  9: { unfold submit. destruct (canSend s) eqn:Hcan; [|done].
       apply canSend_true in Hcan as (Heng & _).
       destruct s as [[] cr ls cl gs]; crush_step; done. }
  all: destruct s as [[] cr ls cl gs]; crush_step; try done.
  all: intros Heng; by rewrite (Hs Heng).
Qed.

Lemma run_loading_empty (evs : list Event) (s : State) :
  loading_empty s → loading_empty (run llamaModels evs s).
Proof.
  revert s. induction evs as [|e evs IH]; intros s Hs; [done|].
  rewrite run_cons. by apply IH, step_loading_empty.
Qed.

Lemma loadResolved_messages (k : nat) (s : State) :
  messages (loadResolved k s) = messages s.
Proof. destruct s as [[] cr ls cl gs]; by crush_step. Qed.

(** *** While a generation runs nothing is appended *)

Lemma step_keeps_empty (e : Event) (s : State) :
  isStreaming s = true → messages s = [] →
  messages (step llamaModels e s) = [].
Proof.
  intros Hstreaming Hempty.
  destruct e; cbn [step].
  1: by select_cases id s.
  9: by rewrite (submit_streaming s Hstreaming).
  all: destruct s as [[] cr ls cl gs]; crush_step; done.
Qed.

Lemma step_gens_length (e : Event) (s : State) :
  length (gens s) ≤ length (gens (step llamaModels e s)).
Proof.
  destruct e; cbn [step].
  1: by select_cases id s.
  9: unfold submit; destruct (canSend s); [|done].
  all: destruct s as [[] cr ls cl gs]; crush_step;
       rewrite ?length_alter, ?length_app; simpl; lia.
Qed.

Lemma running_alter (f : GenTask → GenTask) (l : list GenTask) (g g' : nat)
    (t' : GenTask) :
  (∀ t, running (f t) = true → l !! g = Some t → running t = true) →
  alter f g l !! g' = Some t' → running t' = true →
  ∃ t, l !! g' = Some t ∧ running t = true.
Proof.
  intros Hf Hg' Hrun. destruct (decide (g = g')) as [->|Hne].
  - rewrite list_lookup_alter_eq in Hg'.
    destruct (l !! g') as [t|] eqn:Hl; simplify_eq/=. eauto.
  - rewrite list_lookup_alter_ne in Hg' by done. eauto.
Qed.

Lemma in_flight_step_back (e : Event) (s : State) (g : nat) :
  g < length (gens s) → in_flight g (step llamaModels e s) → in_flight g s.
Proof.
  unfold in_flight. intros Hg (t' & Ht' & Hrun).
  destruct e; cbn [step] in Ht'.
  1: { revert Ht'. select_cases id s; eauto. }
  9: { unfold submit in Ht'. destruct (canSend s); [|by eauto].
       destruct s as [[] cr ls cl gs]; crush_step; eauto.
       rewrite lookup_app_l in Ht' by done. eauto. }
  all: destruct s as [[] cr ls cl gs]; crush_step; eauto.
  all: eapply running_alter; [|done..]; intros; by simplify_eq.
Qed.

Lemma in_flight_run_back (evs : list Event) (s : State) (g : nat) :
  g < length (gens s) → in_flight g (run llamaModels evs s) → in_flight g s.
Proof.
  revert s. induction evs as [|e evs IH]; intros s Hg Hrun; [done|].
  rewrite run_cons in Hrun. apply (in_flight_step_back e); [done|].
  apply IH; [|done]. pose proof (step_gens_length e s). lia.
Qed.

Lemma in_flight_lt (g : nat) (s : State) :
  in_flight g s → g < length (gens s).
Proof. intros (t & Ht & _). by apply lookup_lt_Some in Ht. Qed.

Lemma stays_empty (evs : list Event) (s : State) (g : nat) :
  streaming_lock s → messages s = [] → g < length (gens s) →
  in_flight g (run llamaModels evs s) → messages (run llamaModels evs s) = [].
Proof.
  revert s. induction evs as [|e evs IH]; intros s Hlock Hempty Hg Hrun;
    [done|].
  rewrite run_cons in *.
  assert (g < length (gens (step llamaModels e s))) as Hg'
    by (pose proof (step_gens_length e s); lia).
  apply IH; [by apply step_lock| |done..].
  apply step_keeps_empty; [|done].
  apply (in_flight_streaming g); [done|].
  apply (in_flight_step_back e); [done|].
  by apply (in_flight_run_back evs).
Qed.


(** ** Model selection *)

(** C7 (as amended). Selecting a model, a non-empty id other than the
    selected one, sets the loading flag and the status text "Loading <id>…",
    sets the engine to null and clears the conversation, and leaves the new
    run of [init] pending. *)
Theorem select_begins_loading (id : jsstring) (s : State) :
  id ≠ [] → id ≠ selectedModelId s →
  let s' := selectModel llamaModels id s in
  isLoadingModel s' = true ∧
  engineStatus s' = str "Loading " ++ id ++ [ellipsis] ∧
  loadProgress s' = None ∧
  engine s' = None ∧
  messages s' = [] ∧
  ∃ t, loads s' !! length (loads s) = Some t ∧ load_model_id t = id ∧
       cancelled t = false ∧ load_settled t = false.
Proof.
  intros Hid Hne s'. subst s'. rewrite selectModel_fresh by done. proj.
  do 5 (split; [done|]). eexists. split.
  - rewrite lookup_app_r by (rewrite cancel_registered_length; lia).
    by rewrite cancel_registered_length, Nat.sub_diag.
  - done.
Qed.


(** The first render starts loading the first model of the catalog. *)
Lemma mounted_begins_loading :
  selectedModelId (firstRender llamaModels) ≠ [] →
  isLoadingModel (mounted llamaModels) = true ∧
  engine (mounted llamaModels) = None ∧
  messages (mounted llamaModels) = [] ∧
  effectCleanup (mounted llamaModels) = Some 0.
Proof.
  intros Hid. unfold mounted. by rewrite modelEffect_nonempty.
Qed.


(** ** Writes of a stale generation *)

Lemma stale_writes_on_empty (g : nat) (delta : option jsstring)
    (reply err : jsstring) (s : State) :
  messages s = [] →
  messages (streamChunk g delta s) = [] ∧
  messages (finalReply g reply s) = [] ∧
  messages (genError g err s) = [].
Proof.
  intros Hempty.
  destruct (streamChunk_messages g delta s) as [->|[c ->]],
    (finalReply_messages g reply s) as [->|[c' ->]],
    (genError_messages g err s) as [->|[c'' ->]];
    by rewrite Hempty, ?overwriteLast_nil.
Qed.

Lemma selectModel_gens (id : jsstring) (s : State) :
  gens (selectModel llamaModels id s) = gens s.
Proof. by select_cases id s. Qed.

Lemma selectModel_lock (id : jsstring) (s : State) :
  streaming_lock s → streaming_lock (selectModel llamaModels id s).
Proof. apply (step_lock (SelectModel id)). Qed.

(** C1. A model is selected while generation [g] is in flight.  Whatever
    events follow (chunks, the end and the final message of the stale
    stream, errors, progress reports, submissions, resets, further
    selections): as long as no engine is published the conversation is
    empty, and it is still empty when a load resolves; and as long as [g] is
    in flight the conversation is empty, and each write of [g] (a chunk, the
    final message, an error) leaves it empty. *)
Theorem stale_stream_after_model_switch (s : State) (g : nat) (id : jsstring)
    (evs : list Event) :
  reachable llamaModels s → in_flight g s →
  id ≠ [] → id ≠ selectedModelId s →
  let s' := run llamaModels evs (selectModel llamaModels id s) in
  (engine s' = None →
   messages s' = [] ∧ ∀ k, messages (loadResolved k s') = []) ∧
  (in_flight g s' →
   messages s' = [] ∧
   ∀ delta reply err,
     messages (streamChunk g delta s') = [] ∧
     messages (finalReply g reply s') = [] ∧
     messages (genError g err s') = []).
Proof.
  intros [Hlock _ _ _]%reachable_invariant Hg Hid Hne s'.
  assert (engine (selectModel llamaModels id s) = None ∧
          messages (selectModel llamaModels id s) = []) as [Heng Hempty]
    by (by rewrite selectModel_fresh).
  split.
  - intros Hloading.
    assert (messages s' = []) as Hs'.
    { apply (run_loading_empty evs (selectModel llamaModels id s)); [|done].
      by intros _. }
    split; [done|]. intros k. by rewrite loadResolved_messages.
  - intros Hg'.
    assert (messages s' = []) as Hs'.
    { apply (stays_empty evs _ g); [by apply selectModel_lock|done| |done].
      rewrite selectModel_gens. by apply in_flight_lt. }
    split; [done|]. intros delta reply err.
    by apply stale_writes_on_empty.
Qed.

(** ** Resetting the conversation *)

(** C5 (as amended). [handleReset] clears the conversation and sets the
    status text; it leaves [isStreaming] and the generations as they are.
    From a reachable state with generation [g] in flight, whatever events
    follow the reset, as long as [g] is in flight the conversation is empty
    and each write of [g] leaves it empty. *)
Theorem reset_clears_conversation (s : State) :
  (messages (handleReset s) = [] ∧
   engineStatus (handleReset s)
   = str "Conversation cleared. You can adjust rules and start again." ∧
   isStreaming (handleReset s) = isStreaming s ∧
   gens (handleReset s) = gens s) ∧
  (reachable llamaModels s →
   ∀ g evs, in_flight g s →
     let s' := run llamaModels evs (handleReset s) in
     in_flight g s' →
     messages s' = [] ∧
     ∀ delta reply err,
       messages (streamChunk g delta s') = [] ∧
       messages (finalReply g reply s') = [] ∧
       messages (genError g err s') = []).
Proof.
  split; [by destruct s as [[] cr ls cl gs]|].
  intros [Hlock _ _ _]%reachable_invariant g evs Hg s' Hg'.
  assert (messages s' = []) as Hs'.
  { apply (stays_empty evs _ g); [|done| |done].
    - by apply (step_lock PressReset).
    - by apply in_flight_lt. }
  split; [done|]. intros delta reply err. by apply stale_writes_on_empty.
Qed.

(** ** Completion of a generation *)

Lemma finalReply_awaiting (g : nat) (t : GenTask) (reply : jsstring)
    (s : State) :
  gens s !! g = Some t → stage t = AwaitFinal →
  messages (finalReply g reply s)
  = (if nonempty reply then overwriteLast reply (messages s)
     else messages s) ∧
  isStreaming (finalReply g reply s) = false ∧
  ¬ in_flight g (finalReply g reply s).
Proof.
  intros Hg Hstage. unfold finalReply, in_flight. rewrite Hg.
  destruct t as [? ? ? st]; simpl in Hstage; subst st.
  destruct s as [[] cr ls cl gs]; crush_step.
  all: split_and!; [done..|]; intros (t' & Ht' & Hrun).
  all: rewrite list_lookup_alter_eq, Hg in Ht'; by simplify_eq/=.
Qed.

(** C3 (as amended). When [engine.getMessage()] resolves for a generation
    of a reachable state, the conversation is either empty (it was cleared
    while the generation ran) and stays empty, or it ends with an assistant
    message, whose content becomes the final text when that is not empty,
    whatever was streamed into it, and is left as streamed when the final
    text is empty.  Either way [isStreaming] becomes false. *)
Theorem final_reply_overwrites (s : State) (g : nat) (t : GenTask)
    (reply : jsstring) :
  reachable llamaModels s →
  gens s !! g = Some t → stage t = AwaitFinal →
  let s' := finalReply g reply s in
  isStreaming s' = false ∧
  ((messages s = [] ∧ messages s' = []) ∨
   ∃ pre streamed,
     messages s = pre ++ [ {| role := assistant; content := streamed |} ] ∧
     messages s'
     = pre ++ [ {| role := assistant;
                   content := if nonempty reply then reply else streamed |} ]).
Proof.
  intros [Hlock Hlast _ _]%reachable_invariant Hg Hstage s'.
  destruct (finalReply_awaiting g t reply s Hg Hstage) as (Hmsgs & Hidle & _).
  split; [done|]. subst s'. rewrite Hmsgs.
  assert (in_flight g s) as Hflight.
  { exists t. split; [done|]. unfold running. by rewrite Hstage. }
  destruct (Hlast (in_flight_streaming g s Hlock Hflight))
    as [Hempty|(pre & c & Hpre)].
  - left. rewrite Hempty. by destruct (nonempty reply).
  - right. exists pre, c. split; [done|]. rewrite Hpre.
    destruct (nonempty reply); [|done]. by rewrite overwriteLast_snoc.
Qed.

Lemma streamChunk_streaming (g : nat) (delta : option jsstring)
    (a : jsstring) (pre : list ChatMessage) (s : State) :
  streaming_with g a pre s →
  streaming_with g (a ++ default [] delta) pre (streamChunk g delta s).
Proof.
  intros [(t & Hg & Hstage & Hagg) Hmsgs]. unfold streamChunk. rewrite Hg.
  destruct t as [? ? ? st]; simpl in Hstage, Hagg; subst st a.
  destruct s as [[] cr ls cl gs]; proj; subst.
  unfold streaming_with. unfold_setters. split.
  - eexists. rewrite list_lookup_alter_eq, Hg. by split_and!.
  - by rewrite overwriteLast_snoc.
Qed.

Lemma run_chunks (g : nat) (chunks : list (option jsstring)) (a : jsstring)
    (pre : list ChatMessage) (s : State) :
  streaming_with g a pre s →
  streaming_with g
    (foldl (λ aggregate delta, aggregate ++ default [] delta) a chunks) pre
    (run llamaModels (StreamChunk g <$> chunks) s).
Proof.
  revert a s. induction chunks as [|delta chunks IH]; intros a s Hs; [done|].
  rewrite fmap_cons, run_cons. simpl. by apply IH, streamChunk_streaming.
Qed.

(** The round trip without any other event in between. *)
Lemma round_trip_uninterrupted (s : State) (chunks : list (option jsstring))
    (reply : jsstring) :
  reachable llamaModels s → canSend s = true →
  let g := length (gens s) in
  let s' :=
    run llamaModels
      (Submit :: StreamOpened g :: (StreamChunk g <$> chunks)
       ++ [StreamEnd g; FinalReply g reply]) s in
  messages s'
  = messages s
    ++ [ {| role := user; content := trim (userInput s) |};
         {| role := assistant;
            content := if nonempty reply then reply else streamed chunks |} ].
Proof.
  intros [_ _ Href _]%reachable_invariant Hcan g s'.
  pose proof Hcan as (Heng & _ & Hprompt & _)%canSend_true.
  destruct (engine s) as [eng|] eqn:Heng'; [clear Heng|done].
  subst s'. rewrite !run_cons, run_app. cbn [step]. unfold submit.
  rewrite Hcan, (handleSend_sends s eng Heng' Hprompt), Href.
  set (pre := messages s ++ [ {| role := user; content := trim (userInput s) |} ]).
  match goal with
  | |- context [run _ (_ <$> _) ?s1] =>
      assert (streaming_with g [] pre s1) as Hs1
  end.
  { unfold streamOpened. proj. unfold g. rewrite lookup_app_r by done.
    rewrite Nat.sub_diag. simpl. unfold_setters. split; [|done].
    eexists. proj. rewrite list_lookup_alter_eq, lookup_app_r, Nat.sub_diag by done.
    by split_and!. }
  apply (run_chunks g chunks) in Hs1.
  fold (streamed chunks) in Hs1.
  destruct Hs1 as [(t & Hg & Hstage & Hagg) Hmsgs].
  match goal with
  | |- context [run _ (_ <$> _) ?s1] =>
      generalize dependent (run llamaModels (StreamChunk g <$> chunks) s1)
  end.
  intros s2 Hg Hmsgs. simpl. unfold streamEnd. rewrite Hg.
  destruct t as [? ? ? st]; simpl in Hstage, Hagg; subst st.
  destruct (finalReply_awaiting g
              (set_stage AwaitFinal
                 {| gen_engine := gen_engine0; gen_request := gen_request0;
                    aggregate := aggregate0; stage := Streaming |})
              reply (with_gens (alter (set_stage AwaitFinal) g) s2))
    as (-> & _); [|done|].
  { unfold with_gens. proj. by rewrite list_lookup_alter_eq, Hg. }
  unfold with_gens. proj. rewrite Hmsgs, overwriteLast_snoc. unfold pre.
  rewrite <- !app_assoc. simpl in *. subst.
  by destruct (nonempty reply).
Qed.

End Runs.

Lemma system_prompt_sent_witness :
  activeSystemPrompt readyBrief = str "Be brief." ∧
  activeSystemPrompt (setSystemRules [0x20; 0x0A; 0x09]%N readyBrief)
  = DEFAULT_RULES ∧
  ∃ t, gens (handleSend readyBrief) = gens readyBrief ++ [t] ∧
       req_messages (gen_request t)
       = [ {| api_role := system; api_content := str "Be brief." |};
           {| api_role := chat user; api_content := str "Hello" |} ].
Proof.
  destruct (system_prompt_sent readyBrief) as (Hcustom & _ & _ & _ & _ & Hsend).
  destruct (system_prompt_sent (setSystemRules [0x20; 0x0A; 0x09]%N readyBrief))
    as (_ & Hdefault & _).
  split; [|split].
  - rewrite Hcustom; [vm_compute; reflexivity|]. vm_compute. discriminate.
  - apply Hdefault. vm_compute. reflexivity.
  - destruct (Hsend {| engine_model := str "Llama-A"; engine_attempt := 0 |})
      as (t & Ht & Hreq).
    + vm_compute. reflexivity.
    + vm_compute. discriminate.
    + exists t. split; [exact Ht|]. rewrite Hreq. vm_compute. reflexivity.
Defined.

Lemma select_begins_loading_witness :
  let s' := selectModel catalogAB (str "Llama-B") streamingHi in
  isLoadingModel s' = true ∧
  engineStatus s' = str "Loading " ++ str "Llama-B" ++ [ellipsis] ∧
  loadProgress s' = None ∧
  engine s' = None ∧
  messages s' = [] ∧
  ∃ t, loads s' !! length (loads streamingHi) = Some t ∧
       load_model_id t = str "Llama-B" ∧
       cancelled t = false ∧ load_settled t = false.
Proof.
  apply (select_begins_loading catalogAB (str "Llama-B") streamingHi).
  - discriminate.
  - vm_compute. discriminate.
Defined.


Lemma stale_stream_after_model_switch_witness :
  let s' :=
    run catalogAB [StreamChunk 0 (Some (str " there")); StreamEnd 0]
      (selectModel catalogAB (str "Llama-B") streamingHi) in
  messages streamingHi
  = [ {| role := user; content := str "Hello" |};
      {| role := assistant; content := str "Hi" |} ] ∧
  messages (finalReply 0 (str "Hi there!") s') = [] ∧
  messages (loadResolved 1 (finalReply 0 (str "Hi there!") s')) = [].
Proof.
  intros s'. split; [vm_compute; reflexivity|].
  destruct (stale_stream_after_model_switch catalogAB streamingHi 0
              (str "Llama-B")
              [StreamChunk 0 (Some (str " there")); StreamEnd 0])
    as [_ Hstale].
  - exists [EngineCreated 0; TypeInput (str "Hello"); Submit; StreamOpened 0;
            StreamChunk 0 (Some (str "Hi"))].
    vm_compute. reflexivity.
  - eexists. split; vm_compute; reflexivity.
  - discriminate.
  - vm_compute. discriminate.
  - destruct Hstale as [_ Hwrites].
    + eexists. split; vm_compute; reflexivity.
    + destruct (Hwrites None (str "Hi there!") []) as (_ & Hfinal & _).
      split; [exact Hfinal|].
      rewrite loadResolved_messages. exact Hfinal.
Defined.

(** ** Concrete runs *)

(** The reset button pressed during a stream leaves [isStreaming] true. *)
Lemma reset_keeps_streaming :
  isStreaming streamingHi = true ∧
  isStreaming (handleReset streamingHi) ≠ false.
Proof. split; [vm_compute; reflexivity|]. vm_compute. discriminate. Qed.

Lemma reset_clears_conversation_witness :
  messages (handleReset streamingHi) = [] ∧
  messages
    (finalReply 0 (str "Hi there!")
       (run catalogAB [StreamChunk 0 (Some (str " there")); StreamEnd 0]
          (handleReset streamingHi))) = [].
Proof.
  destruct (reset_clears_conversation catalogAB streamingHi)
    as [(Hclear & _) Hstale].
  split; [exact Hclear|].
  destruct (Hstale
              ltac:(exists [EngineCreated 0; TypeInput (str "Hello"); Submit;
                            StreamOpened 0; StreamChunk 0 (Some (str "Hi"))];
                    vm_compute; reflexivity)
              0 [StreamChunk 0 (Some (str " there")); StreamEnd 0])
    as [_ Hwrites].
  - eexists. split; vm_compute; reflexivity.
  - eexists. split; vm_compute; reflexivity.
  - destruct (Hwrites None (str "Hi there!") []) as (_ & Hfinal & _).
    exact Hfinal.
Defined.

(** An empty final text leaves the streamed text in the trailing assistant
    message; and after a reset during the stream there is no trailing
    message for the final text to go to. *)
Lemma final_text_not_applied :
  messages (run catalogAB (helloGeneration []) readyHello)
  = [ {| role := user; content := str "Hello" |};
      {| role := assistant; content := str "Hi there" |} ] ∧
  str "Hi there" ≠ [] ∧
  last (messages
          (run catalogAB (helloGenerationReset (str "Hi there!")) readyHello))
  = None.
Proof.
  split; [vm_compute; reflexivity|]. split; [discriminate|].
  vm_compute. reflexivity.
Qed.

Lemma final_reply_overwrites_witness :
  reachable catalogAB awaitingFinalHi ∧
  let s' := finalReply 0 (str "Hi there!") awaitingFinalHi in
  isStreaming s' = false ∧
  ((messages awaitingFinalHi = [] ∧ messages s' = []) ∨
   ∃ pre streamed,
     messages awaitingFinalHi
     = pre ++ [ {| role := assistant; content := streamed |} ] ∧
     messages s'
     = pre ++ [ {| role := assistant;
                   content := if nonempty (str "Hi there!")
                              then str "Hi there!" else streamed |} ]).
Proof.
  assert (reachable catalogAB awaitingFinalHi) as Hreach.
  { exists [EngineCreated 0; TypeInput (str "Hello"); Submit; StreamOpened 0;
            StreamChunk 0 (Some (str "Hi")); StreamEnd 0].
    vm_compute. reflexivity. }
  split; [exact Hreach|].
  eapply (final_reply_overwrites catalogAB awaitingFinalHi 0);
    [exact Hreach|vm_compute; reflexivity|reflexivity].
Defined.

(** The round trip of "Hello" with an empty final text, and with a reset
    during the stream: in neither does the conversation end with the user
    message and an assistant message holding the final text. *)
Lemma round_trip_not_final_text :
  messages (run catalogAB (helloGeneration []) readyHello)
  ≠ messages readyHello
    ++ [ {| role := user; content := str "Hello" |};
         {| role := assistant; content := [] |} ] ∧
  messages (run catalogAB (helloGenerationReset (str "Hi there!")) readyHello)
  ≠ messages readyHello
    ++ [ {| role := user; content := str "Hello" |};
         {| role := assistant; content := str "Hi there!" |} ].
Proof. split; vm_compute; discriminate. Qed.

(** ** Further properties of the strings *)

Lemma trimStart_white (s : jsstring) : white s → trimStart s = [].
Proof.
  induction 1 as [|c s Hc _ IH]; simpl; [done|]. by rewrite Hc.
Qed.

Lemma white_app (l r : jsstring) : white l → white r → white (l ++ r).
Proof. apply Forall_app_2. Qed.

(** A string trims to the empty string exactly when it is white space. *)
Lemma trim_empty_white (s : jsstring) : trim s = [] ↔ white s.
Proof.
  split.
  - intros Hempty. destruct (trim_decompose s) as (l & r & Hs & Hl & Hr).
    rewrite Hs, Hempty. by apply white_app.
  - intros Hwhite. unfold trim, trimEnd. by rewrite (trimStart_white s).
Qed.

Lemma trim_trimmed_prompt (s : jsstring) :
  trim s ≠ [] → trimmed_prompt (trim s).
Proof.
  intros Hne. split; [done|].
  intros c [Hc|Hc]; [by apply (trim_head s)|by apply (trim_last s)].
Qed.

Lemma transcript_app (ts1 ts2 : list (jsstring * jsstring)) :
  transcript (ts1 ++ ts2) = transcript ts1 ++ transcript ts2.
Proof.
  induction ts1 as [|[p r] ts1 IH]; simpl; [done|]. by rewrite IH.
Qed.

Lemma transcript_snoc (ts : list (jsstring * jsstring)) (p r : jsstring) :
  transcript (ts ++ [(p, r)])
  = (transcript ts ++ [ {| role := user; content := p |} ])
    ++ [ {| role := assistant; content := r |} ].
Proof. rewrite transcript_app. simpl. by rewrite <- app_assoc. Qed.

(** Overwriting the last message of a transcript rewrites the reply of its
    last turn. *)
Lemma overwriteLast_transcript (c : jsstring)
    (ts : list (jsstring * jsstring)) :
  ∃ ts', overwriteLast c (transcript ts) = transcript ts' ∧
         ts'.*1 = ts.*1.
Proof.
  destruct ts as [|t ts _] using rev_ind; [by exists []|].
  destruct t as [p r]. exists (ts ++ [(p, c)]).
  rewrite !transcript_snoc, overwriteLast_snoc, !fmap_app. done.
Qed.

Lemma overwriteLast_lookup (c : jsstring) (l : list ChatMessage) (i : nat)
    (m : ChatMessage) :
  l !! i = Some m → S i < length l ∨ role m = user →
  overwriteLast c l !! i = Some m.
Proof.
  destruct l as [|x pre _] using rev_ind; [done|].
  rewrite overwriteLast_snoc, length_app. simpl. intros Hi Hkeep.
  destruct (decide (i < length pre)) as [Hlt|Hge].
  - rewrite lookup_app_l in Hi |- * by done. done.
  - assert (i = length pre) as -> by (apply lookup_lt_Some in Hi;
      rewrite length_app in Hi; simpl in Hi; lia).
    rewrite lookup_app_r, Nat.sub_diag in Hi |- * by done.
    simpl in *. simplify_eq. destruct Hkeep as [? | ->]; [lia|done].
Qed.

Section Properties.

Variable llamaModels : list ModelRecord.

Ltac select_cases id s :=
  destruct (decide (id = selectedModelId s)) as [->|?];
  [ rewrite selectModel_same
  | destruct (decide (id = [])) as [->|?];
    [ rewrite selectModel_empty by done
    | rewrite selectModel_fresh by done ] ].

(** Induction over the reachable states. *)
Lemma reachable_ind (P : State → Prop) :
  P (mounted llamaModels) →
  (∀ e s, reachable llamaModels s → P s → P (step llamaModels e s)) →
  ∀ s, reachable llamaModels s → P s.
Proof.
  intros Hmounted Hstep s [evs ->].
  induction evs as [|e evs IH] using rev_ind; [done|].
  rewrite run_app. apply Hstep; [by exists evs|done].
Qed.

Lemma reachable_step (e : Event) (s : State) :
  reachable llamaModels s → reachable llamaModels (step llamaModels e s).
Proof. intros [evs ->]. exists (evs ++ [e]). by rewrite run_app. Qed.

Lemma reachable_run (evs : list Event) (s : State) :
  reachable llamaModels s → reachable llamaModels (run llamaModels evs s).
Proof. intros [evs0 ->]. exists (evs0 ++ evs). by rewrite run_app. Qed.

Lemma mounted_cases :
  mounted llamaModels = firstRender llamaModels ∧
    selectedModelId (firstRender llamaModels) = [] ∨
  mounted llamaModels
  = selectModel llamaModels (selectedModelId (firstRender llamaModels))
      (setSelectedModelId [] (firstRender llamaModels)) ∧
    selectedModelId (firstRender llamaModels) ≠ [].
Proof.
  unfold mounted.
  destruct (decide (selectedModelId (firstRender llamaModels) = []))
    as [Hid|Hid].
  - left. unfold modelEffect. by rewrite Hid.
  - right. split; [|done].
    rewrite modelEffect_nonempty, selectModel_fresh by done. done.
Qed.

(** *** The status text *)

Lemma str_app_nonempty (a : string) (rest : jsstring) :
  a ≠ EmptyString → str a ++ rest ≠ [].
Proof. by destruct a. Qed.

(** X1. The status text is never empty. *)
Theorem status_never_empty (s : State) :
  reachable llamaModels s → engineStatus s ≠ [].
Proof.
  revert s. apply reachable_ind.
  - destruct mounted_cases as [[Hm Hid]|[Hm Hid]]; rewrite Hm; [done|].
    rewrite selectModel_fresh by done. proj. by apply str_app_nonempty.
  - intros e s _ Hs. destruct e; cbn [step].
    1: by select_cases id s; proj.
    9: unfold submit; destruct (canSend s); [|done].
    all: destruct s as [[] cr ls cl gs]; crush_step; try done.
    all: first [by apply nonempty_true | by apply str_app_nonempty].
Qed.

(** *** One generation at a time *)

Lemma pending_two (l : list GenTask) (g g' : nat) (t t' : GenTask) :
  l !! g = Some t → l !! g' = Some t' →
  running t = true → running t' = true → g ≠ g' → 2 ≤ pending l.
Proof.
  revert g g'. induction l as [|x l IH]; intros [|g] [|g'] Hg Hg' Ht Ht' Hne;
    simplify_eq/=; rewrite pending_cons.
  - pose proof (pending_positive l g' t' Hg' Ht'). rewrite Ht. lia.
  - pose proof (pending_positive l g t Hg Ht). rewrite Ht'. lia.
  - assert (g ≠ g') by congruence.
    pose proof (IH g g' Hg Hg' Ht Ht'). lia.
Qed.

Lemma pending_witness (l : list GenTask) :
  0 < pending l → ∃ g t, l !! g = Some t ∧ running t = true.
Proof.
  induction l as [|x l IH]; [unfold pending; simpl; lia|].
  rewrite pending_cons. destruct (running x) eqn:Hx.
  - intros _. by exists 0, x.
  - intros (g & t & Hg & Ht)%IH. by exists (S g), t.
Qed.

Lemma in_flight_unique (g g' : nat) (s : State) :
  streaming_lock s → in_flight g s → in_flight g' s → g = g'.
Proof.
  intros Hlock (t & Hg & Ht) (t' & Hg' & Ht').
  destruct (decide (g = g')) as [|Hne]; [done|].
  pose proof (pending_two _ _ _ _ _ Hg Hg' Ht Ht' Hne).
  unfold streaming_lock in Hlock. destruct (isStreaming s); lia.
Qed.

(** X2. [isStreaming] is true exactly when a call of [handleSend] is
    running, and no two calls ever run at once. *)
Theorem one_generation_at_a_time (s : State) :
  reachable llamaModels s →
  (isStreaming s = true ↔ ∃ g, in_flight g s) ∧
  (∀ g g', in_flight g s → in_flight g' s → g = g').
Proof.
  intros [Hlock _ _ _]%reachable_invariant. split; [split|].
  - intros Hs. unfold streaming_lock in Hlock. rewrite Hs in Hlock.
    destruct (pending_witness (gens s)) as (g & t & Hg & Ht); [lia|].
    exists g. by exists t.
  - intros [g Hg]. by apply (in_flight_streaming g).
  - intros g g'. by apply in_flight_unique.
Qed.

(** *** The prompt box *)

(** X3. While a reply is streaming the prompt box is empty. *)
Theorem input_empty_while_streaming (s : State) :
  reachable llamaModels s → isStreaming s = true → userInput s = [].
Proof.
  revert s.
  apply (reachable_ind (λ s, isStreaming s = true → userInput s = [])).
  - destruct mounted_cases as [[Hm Hid]|[Hm Hid]]; rewrite Hm; [done|].
    by rewrite selectModel_fresh.
  - intros e s _ Hs. destruct e; cbn [step].
    1: by select_cases id s; proj.
    9: unfold submit; destruct (canSend s); [|done].
    all: destruct s as [[] cr ls cl gs]; crush_step; try done.
    all: intros ->; by rewrite ?orb_true_r in *.
Qed.

(** *** The shape of the conversation *)

Lemma turns_ok_overwrite (c : jsstring) (msgs : list ChatMessage) :
  (∃ turns, msgs = transcript turns ∧ Forall trimmed_prompt turns.*1) →
  ∃ turns, overwriteLast c msgs = transcript turns ∧
           Forall trimmed_prompt turns.*1.
Proof.
  intros (ts & -> & Hts).
  destruct (overwriteLast_transcript c ts) as (ts' & -> & Hfst).
  exists ts'. by rewrite Hfst.
Qed.

(** X4. The conversation is always a sequence of turns, each a user message
    followed by an assistant message, and every user message holds a
    non-empty prompt without white space at either end. *)
Theorem conversation_is_transcript (s : State) :
  reachable llamaModels s →
  ∃ turns, messages s = transcript turns ∧ Forall trimmed_prompt turns.*1.
Proof.
  intros Hreach. pose proof Hreach as Hr. revert s Hr Hreach.
  apply (reachable_ind (λ s, reachable llamaModels s → turns_ok s)).
  - intros _. exists [].
    destruct mounted_cases as [[Hm Hid]|[Hm Hid]]; rewrite Hm; [done|].
    by rewrite selectModel_fresh.
  - intros e s Hreach Hs _. specialize (Hs Hreach).
    apply reachable_invariant in Hreach as [_ _ Href _].
    destruct e; cbn [step].
    1: { select_cases id s; proj; [done..|]. by exists []. }
    9: { unfold submit. destruct (canSend s) eqn:Hcan; [|done].
         apply canSend_true in Hcan as (Heng & _ & Hprompt & _).
         destruct (engine s) as [eng|] eqn:Heng'; [|done].
         rewrite (handleSend_sends s eng Heng' Hprompt), Href.
         destruct Hs as (ts & Hts & Hall).
         exists (ts ++ [(trim (userInput s), [])]). unfold turns_ok. proj.
         rewrite transcript_snoc, Hts, fmap_app. split; [done|].
         apply Forall_app_2; [done|]. constructor; [|done].
         by apply trim_trimmed_prompt. }
    all: unfold turns_ok in *.
    all: destruct s as [[] cr ls cl gs]; crush_step; try done.
    all: first [by exists [] | by apply turns_ok_overwrite].
Qed.

(** *** The requests *)

Lemma alter_lookup_inv {A} (f : A → A) (l : list A) (g g' : nat) (x' : A) :
  alter f g l !! g' = Some x' →
  ∃ x, l !! g' = Some x ∧ (g' ≠ g ∧ x' = x ∨ g' = g ∧ x' = f x).
Proof.
  destruct (decide (g = g')) as [->|Hne].
  - rewrite list_lookup_alter_eq. destruct (l !! g'); naive_solver.
  - rewrite list_lookup_alter_ne by done. naive_solver.
Qed.

(** X5. Every completion request ever made asks for a stream and consists of
    one system message with a non-empty prompt followed by chat messages,
    the last of which is the user's trimmed, non-empty prompt. *)
Theorem requests_well_formed (s : State) (g : nat) (t : GenTask) :
  reachable llamaModels s → gens s !! g = Some t →
  request_shape (gen_request t).
Proof.
  intros Hreach. revert g t. change (requests_ok s). revert s Hreach.
  apply reachable_ind.
  - intros g t.
    destruct mounted_cases as [[Hm Hid]|[Hm Hid]]; rewrite Hm; [done|].
    by rewrite selectModel_fresh.
  - intros e s _ Hs. unfold requests_ok in *. destruct e; cbn [step].
    1: by select_cases id s; proj.
    9: { unfold submit. destruct (canSend s) eqn:Hcan; [|done].
         apply canSend_true in Hcan as (Heng & _ & Hprompt & _).
         destruct (engine s) as [eng|] eqn:Heng'; [|done].
         rewrite (handleSend_sends s eng Heng' Hprompt). proj.
         intros g t [Hg|[_ Hg]]%lookup_app_Some; [by eauto|].
         destruct (g - length (gens s)); simplify_eq/=.
         split; [done|]. eexists _, _, _. split; [done|]. split.
         - unfold activeSystemPrompt.
           destruct (nonempty (trim (systemRules s))) eqn:Hrules.
           + by apply nonempty_true.
           + apply DEFAULT_RULES_nonempty.
         - by apply trim_trimmed_prompt. }
    all: destruct s as [[] cr ls cl gs]; crush_step; try done.
    all: intros g' t' (t0 & Ht0 & [[_ ->]|[-> ->]])%alter_lookup_inv;
         exact (Hs _ _ Ht0).
Qed.

(** *** The streamed text *)

Lemma step_shows_aggregate (e : Event) (s : State) :
  reachable llamaModels s → shows_aggregate s →
  shows_aggregate (step llamaModels e s).
Proof.
  intros [Hlock _ Href _]%reachable_invariant Hs.
  unfold shows_aggregate in *. destruct e; cbn [step].
  1: { select_cases id s; proj; [done..|]. by left. }
  9: { unfold submit. destruct (canSend s) eqn:Hcan; [|done].
       apply canSend_true in Hcan as (Heng & Hidle & Hprompt & _).
       destruct (engine s) as [eng|] eqn:Heng'; [|done].
       rewrite (handleSend_sends s eng Heng' Hprompt). proj.
       intros g t [Hg|[_ Hg]]%lookup_app_Some Hrun.
       - assert (isStreaming s = true) as Hstr
           by (apply (in_flight_streaming g); [done|by exists t]).
         congruence.
       - destruct (g - length (gens s)); simplify_eq/=. right. by eexists. }
  all: crush_step; try done; try (by left).
  all: intros g' t' (t0 & Ht0 & [[Hne ->]|[-> ->]])%alter_lookup_inv Hrun.
  all: try (destruct Hne; apply (in_flight_unique g' g s Hlock);
            [by exists t0|by eexists]).
  all: simplify_eq/=.
  all: match goal with
       | H : gens _ !! _ = Some _ |- _ =>
           destruct (Hs _ _ H eq_refl) as [Hempty|[pre Hpre]]
       end.
  all: first [ by left; rewrite ?Hempty
             | right; exists pre; by rewrite Hpre, ?overwriteLast_snoc ].
Qed.

Lemma shows_aggregate_reachable (s : State) (g : nat)
    (t : GenTask) :
  reachable llamaModels s → gens s !! g = Some t → running t = true →
  messages s = [] ∨
  ∃ pre, messages s
         = pre ++ [ {| role := assistant; content := aggregate t |} ].
Proof.
  intros Hreach. revert g t. change (shows_aggregate s).
  pose proof Hreach as Hr. revert s Hr Hreach.
  apply (reachable_ind (λ s, reachable llamaModels s → shows_aggregate s)).
  - intros _ g t.
    destruct mounted_cases as [[Hm Hid]|[Hm Hid]]; rewrite Hm; [done|].
    by rewrite selectModel_fresh.
  - intros e s Hreach Hs _. apply step_shows_aggregate; auto.
Qed.

(** X6. In every reachable state, while a generation is in flight the
    conversation is empty (it was cleared) or its last message is the
    assistant message holding exactly the text streamed so far. *)
Theorem trailing_message_is_streamed_text (s : State) (g : nat)
    (t : GenTask) :
  reachable llamaModels s → gens s !! g = Some t → running t = true →
  messages s = [] ∨
  ∃ pre, messages s
         = pre ++ [ {| role := assistant; content := aggregate t |} ].
Proof. apply shows_aggregate_reachable. Qed.


(** X8. An error of a generation in flight ends it: [isStreaming] becomes
    false, and the trailing assistant message, if the conversation was not
    cleared, holds the warning sign and the error text in place of the
    text streamed so far. *)
Theorem generation_error_shown (s : State) (g : nat) (t : GenTask)
    (err : jsstring) :
  reachable llamaModels s → gens s !! g = Some t → running t = true →
  let s' := genError g err s in
  isStreaming s' = false ∧ ¬ in_flight g s' ∧
  (messages s = [] ∧ messages s' = [] ∨
   ∃ pre,
     messages s
     = pre ++ [ {| role := assistant; content := aggregate t |} ] ∧
     messages s'
     = pre ++ [ {| role := assistant;
                   content := warning_sign ++ str " " ++ err |} ]).
Proof.
  intros Hreach Hg Hrun s'. subst s'.
  destruct (shows_aggregate_reachable s g t Hreach Hg Hrun)
    as [Hempty|[pre Hpre]].
  all: unfold genError, in_flight; rewrite Hg.
  all: destruct t as [? ? ? []]; try done; unfold finishGen; unfold_setters.
  all: split; [done|split].
  all: try (intros (t' & Ht' & Hrun'); rewrite list_lookup_alter_eq, Hg in Ht';
            by simplify_eq/=).
  all: first [ left; by rewrite Hempty
             | right; exists pre; by rewrite Hpre, overwriteLast_snoc ].
Qed.



(** *** Loading *)

Lemma step_loading_shown (e : Event) (s : State) :
  loads_ok s → loading_shown s → loading_shown (step llamaModels e s).
Proof.
  intros Hok Hs. unfold loading_shown, load_pending in *.
  destruct e; cbn [step].
  1: { select_cases id s; proj; [done| |done].
       intros k (t & Ht & Hc & _).
       apply (cancel_registered_uncancelled s k t Hok) in Ht. congruence. }
  9: { unfold submit. destruct (canSend s) eqn:Hcan; [|done].
       apply canSend_true in Hcan as (Heng & _ & Hprompt & _).
       destruct (engine s) as [eng|] eqn:Heng'; [|done].
       rewrite (handleSend_sends s eng Heng' Hprompt). proj.
       intros k Hk. destruct (Hs k Hk). congruence. }
  all: crush_step; try done.
  all: intros k' (t' & (t0 & Ht0 & Hcase)%alter_lookup_inv & Hc & Hsettled).
  all: destruct Hcase as [[Hne ->]|[-> ->]]; [|done].
  all: try (apply (Hs k'); by exists t0).
  all: destruct Hne.
  all: match goal with
       | H : loads _ !! ?k = Some (Build_LoadTask ?a ?b ?c ?d),
         H' : cancelled (Build_LoadTask ?a ?b ?c ?d) = false |- _ =>
           pose proof (uncancelled_registered s Hok k _ H H')
       end.
  all: pose proof (uncancelled_registered s Hok _ _ Ht0 Hc); congruence.
Qed.

Lemma loading_shown_reachable (s : State) :
  reachable llamaModels s → loading_shown s.
Proof.
  intros Hreach. pose proof Hreach as Hr. revert s Hr Hreach.
  apply (reachable_ind (λ s, reachable llamaModels s → loading_shown s)).
  - intros _ k.
    destruct mounted_cases as [[Hm Hid]|[Hm Hid]]; rewrite Hm.
    + by intros (t & Ht & _).
    + by rewrite selectModel_fresh.
  - intros e s Hreach Hs _. apply step_loading_shown; [|by apply Hs].
    by apply reachable_invariant in Hreach as [_ _ _ Hok].
Qed.

Lemma loading_empty_reachable (s : State) :
  reachable llamaModels s → loading_empty s.
Proof.
  intros [evs ->]. apply run_loading_empty.
  destruct mounted_cases as [[Hm Hid]|[Hm Hid]]; rewrite Hm; [done|].
  by rewrite selectModel_fresh.
Qed.

(** X9. While the current load is pending there is no engine, the loading
    flag is set, the conversation is empty and nothing can be sent. *)
Theorem nothing_sent_while_loading (s : State) (k : nat) :
  reachable llamaModels s → load_pending k s →
  engine s = None ∧ isLoadingModel s = true ∧ messages s = [] ∧
  submit s = s.
Proof.
  intros Hreach Hk.
  destruct (loading_shown_reachable s Hreach k Hk) as [Heng Hloading].
  split_and!; [done|done|by apply loading_empty_reachable|].
  unfold submit, canSend. by rewrite Hloading, andb_false_r.
Qed.

(** X10. Whenever no engine is published the conversation is empty and no
    generation can be started. *)
Theorem no_engine_no_conversation (s : State) :
  reachable llamaModels s → engine s = None →
  messages s = [] ∧ handleSend s = s.
Proof.
  intros Hreach Heng. split; [by apply loading_empty_reachable|].
  unfold handleSend. by rewrite Heng.
Qed.

Lemma step_no_engine (e : Event) (s : State) :
  engine s = None → no_load_pending s →
  keeps_model (selectedModelId s) e →
  engine (step llamaModels e s) = None ∧
  no_load_pending (step llamaModels e s) ∧
  selectedModelId (step llamaModels e s) = selectedModelId s.
Proof.
  intros Heng Hnone Hkeep. unfold no_load_pending, load_pending in *.
  destruct e; cbn [step]; cbn [keeps_model] in Hkeep.
  1: { subst id. by rewrite selectModel_same. }
  9: { unfold submit. destruct (canSend s) eqn:Hcan; [|done].
       by apply canSend_true in Hcan as (? & _). }
  all: crush_step; try done.
  all: try (destruct (Hnone k); by eexists).
  all: split_and!; try done.
  all: intros k' (t' & (t0 & Ht0 & [[Hne ->]|[-> ->]])%alter_lookup_inv
                  & Hc & Hsettled); [|done].
  all: destruct (Hnone k'); by exists t0.
Qed.

Lemma run_no_engine (evs : list Event) (s : State) :
  engine s = None → no_load_pending s →
  Forall (keeps_model (selectedModelId s)) evs →
  engine (run llamaModels evs s) = None ∧
  no_load_pending (run llamaModels evs s).
Proof.
  revert s. induction evs as [|e evs IH]; intros s Heng Hnone Hevs; [done|].
  apply Forall_cons in Hevs as [He Hevs]. rewrite run_cons.
  destruct (step_no_engine e s Heng Hnone He) as (Heng' & Hnone' & Hid).
  apply IH; [done..|]. by rewrite Hid.
Qed.

(** X11. Without a pending load and without an engine, no engine is ever
    published, and so nothing can be sent, until a model other than the
    selected one is selected. *)
Theorem no_engine_until_new_selection (evs : list Event) (s : State) :
  engine s = None → no_load_pending s →
  Forall (keeps_model (selectedModelId s)) evs →
  engine (run llamaModels evs s) = None ∧
  submit (run llamaModels evs s) = run llamaModels evs s.
Proof.
  intros Heng Hnone Hevs.
  destruct (run_no_engine evs s Heng Hnone Hevs) as [Heng' _].
  split; [done|]. unfold submit, canSend. by rewrite Heng'.
Qed.

(** X12. When the current load fails, the status shows the failure, the
    loading flag is cleared and there is no engine; the page stays without
    an engine, re-selecting the same model included, until another model is
    selected. *)
Theorem load_failure_is_terminal (s : State) (k : nat) (err : jsstring)
    (evs : list Event) :
  reachable llamaModels s → load_pending k s →
  Forall (keeps_model (selectedModelId s)) evs →
  let s' := loadRejected k err s in
  engineStatus s' = str "Failed to load model: " ++ err ∧
  isLoadingModel s' = false ∧
  engine (run llamaModels evs s') = None.
Proof.
  intros Hreach Hk Hevs s'.
  destruct (loading_shown_reachable s Hreach k Hk) as [Heng _].
  apply reachable_invariant in Hreach as [_ _ _ Hok].
  destruct Hk as (t & Ht & Hc & Hsettled).
  assert (s' = setIsLoadingModel false
                 (setEngineStatus (str "Failed to load model: " ++ err)
                    (with_loads (alter set_settled k) s))) as Hs'.
  { subst s'. unfold loadRejected. rewrite Ht.
    destruct t as [? ? c st]; simpl in Hc, Hsettled; by subst c st. }
  rewrite Hs'. unfold_setters. split_and!; [done..|].
  apply run_no_engine; proj; [done| |done].
  intros k' (t' & (t0 & Ht0 & [[Hne ->]|[-> ->]])%alter_lookup_inv
             & Hc' & Hsettled'); [|done].
  destruct Hne.
  pose proof (uncancelled_registered s Hok k t Ht Hc).
  pose proof (uncancelled_registered s Hok k' t0 Ht0 Hc'). congruence.
Qed.

(** *** What an event can change in the conversation *)

Lemma overwriteLast_cases (c : jsstring) (l : list ChatMessage) :
  overwriteLast c l = l ∨
  ∃ pre old, l = pre ++ [ {| role := assistant; content := old |} ] ∧
             overwriteLast c l
             = pre ++ [ {| role := assistant; content := c |} ].
Proof.
  destruct l as [|m pre _] using rev_ind; [by left|].
  rewrite overwriteLast_snoc. destruct m as [[] old]; [by left|].
  right. by exists pre, old.
Qed.

(** X13. An event other than a reset or a model selection changes the
    conversation in one of two ways only.  A submission leaves it as it is
    or appends to it, as it is, the user message with the trimmed prompt and
    an empty assistant message.  Any other event leaves it as it is or
    replaces the content of its last message, an assistant message.  So
    every user message and every message but the last one stays in place. *)
Theorem only_trailing_reply_changes (e : Event) (s : State) :
  reachable llamaModels s → clears e = false →
  let next := messages (step llamaModels e s) in
  match e with
  | Submit =>
      next = messages s ∨
      next = messages s
             ++ [ {| role := user; content := trim (userInput s) |};
                  {| role := assistant; content := [] |} ]
  | _ =>
      next = messages s ∨
      ∃ pre old c,
        messages s = pre ++ [ {| role := assistant; content := old |} ] ∧
        next = pre ++ [ {| role := assistant; content := c |} ]
  end ∧
  ∀ i m, messages s !! i = Some m →
         S i < length (messages s) ∨ role m = user →
         next !! i = Some m.
Proof.
  intros [_ _ Href _]%reachable_invariant He next. subst next.
  destruct e; cbn [clears] in He; try discriminate He; cbn [step].
  9: { unfold submit. destruct (canSend s) eqn:Hcan; [|by split; [left|]].
       apply canSend_true in Hcan as (Heng & _ & Hprompt & _).
       destruct (engine s) as [eng|] eqn:Heng'; [|done].
       rewrite (handleSend_sends s eng Heng' Hprompt), Href. proj.
       split; [right; by rewrite <- app_assoc|].
       intros i m Hi _. apply lookup_lt_Some in Hi as Hlt.
       rewrite !lookup_app_l by (rewrite ?length_app; lia). done. }
  all: crush_step; try (by split; [left|]).
  all: split; [|intros i m Hi Hkeep; by apply overwriteLast_lookup].
  all: match goal with
       | |- context [overwriteLast ?c ?l] =>
           destruct (overwriteLast_cases c l) as [->|(pre & old & Hl & ->)]
       end; [by left|right; eexists _, _, _; split; [exact Hl|done]].
Qed.

(** *** Sending *)

(** X14. [handleSend] does nothing exactly when there is no engine or the
    prompt box holds nothing but white space.  Otherwise it starts a
    generation: it appends the user message with the trimmed prompt and an
    empty assistant message to the conversation of [conversationRef], empties
    the prompt box, sets [isStreaming], and leaves one new call running, on
    the current engine, with an empty aggregate and awaiting its stream. *)
Theorem handleSend_noop_iff (s : State) :
  (handleSend s = s ↔ engine s = None ∨ white (userInput s)) ∧
  (∀ eng, engine s = Some eng → ¬ white (userInput s) →
     messages (handleSend s)
     = conversationRef s
       ++ [ {| role := user; content := trim (userInput s) |};
            {| role := assistant; content := [] |} ] ∧
     userInput (handleSend s) = [] ∧
     isStreaming (handleSend s) = true ∧
     engine (handleSend s) = Some eng ∧
     ∃ t, gens (handleSend s) = gens s ++ [t] ∧
          gen_engine t = eng ∧ aggregate t = [] ∧ stage t = AwaitStream).
Proof.
  split; [split|].
  - intros Hsame. destruct (engine s) as [eng|] eqn:Heng; [|by left].
    right. apply trim_empty_white.
    destruct (decide (trim (userInput s) = [])) as [|Hprompt]; [done|].
    rewrite (handleSend_sends s eng Heng Hprompt) in Hsame.
    apply (f_equal (λ x, length (gens x))) in Hsame. proj.
    rewrite length_app in Hsame. simpl in Hsame. lia.
  - unfold handleSend. intros [->|Hwhite%trim_empty_white]; [done|].
    rewrite Hwhite. simpl. by destruct (engine s).
  - intros eng Heng Hwhite.
    assert (trim (userInput s) ≠ []) as Hprompt
      by (by intros ?%trim_empty_white).
    rewrite (handleSend_sends s eng Heng Hprompt). proj.
    rewrite <- app_assoc. split_and!; [done..|]. by eexists.
Qed.

(** *** Progress reports *)

Lemma formatProgress_empty (p : InitProgressReport) :
  formatProgress (Some p) = [] ↔
  progress_pct p = None ∧ default [] (text p) = [].
Proof.
  unfold formatProgress. destruct (progress_pct p) as [pct|].
  - split; [|by intros [? _]].
    intros [_ H]%app_eq_nil. discriminate.
  - split; [done|by intros [_ ?]].
Qed.

(** X15. A progress report of a run of [init] that is not cancelled is
    stored and shown: when the progress is truthy, as the characters printed
    for its percentage followed by "% • " and the text; when it is not, as
    the text alone; and as "Preparing model…" exactly when the progress is
    falsy and the text is empty or missing.  Nothing else of the view
    changes. *)
Theorem progress_report_shown (s : State) (k : nat) (t : LoadTask)
    (p : InitProgressReport) :
  loads s !! k = Some t → cancelled t = false →
  let s' := loadProgressed k p s in
  loadProgress s' = Some p ∧
  match progress_pct p, default [] (text p) with
  | None, [] => engineStatus s' = str "Preparing model" ++ [ellipsis]
  | None, shown => engineStatus s' = shown
  | Some percentage, shown =>
      engineStatus s'
      = percentage ++ str "% " ++ [bullet] ++ str " " ++ shown
  end ∧
  engine s' = engine s ∧ isLoadingModel s' = isLoadingModel s ∧
  messages s' = messages s ∧ isStreaming s' = isStreaming s.
Proof.
  intros Ht Hc s'. subst s'.
  unfold loadProgressed. rewrite Ht.
  destruct t as [? ? c st]; simpl in Hc; subst c.
  unfold_setters. split; [done|]. split; [|done].
  destruct (nonempty (formatProgress (Some p))) eqn:Hshown.
  - apply nonempty_true in Hshown. unfold formatProgress in *.
    destruct (progress_pct p), (default [] (text p)); done.
  - apply nonempty_false in Hshown.
    apply formatProgress_empty in Hshown as [-> ->]. done.
Qed.

(** *** The catalog *)

(** X16. The run of [init] that a selection starts loads the selected id and
    is configured with a catalog record of that id, which it has exactly
    when the catalog lists the id. *)
Theorem load_uses_catalog_record (id : jsstring) (s : State) :
  id ≠ [] → id ≠ selectedModelId s →
  ∃ t, last (loads (selectModel llamaModels id s)) = Some t ∧
       load_model_id t = id ∧
       (∀ r, load_record t = Some r → r ∈ llamaModels ∧ model_id r = id) ∧
       (load_record t = None ↔ id ∉ model_id <$> llamaModels).
Proof.
  intros Hid Hne. rewrite selectModel_fresh by done. proj.
  eexists. rewrite last_snoc. split; [done|]. cbn [load_model_id load_record].
  split; [done|]. split.
  - intros r [Hin Hr]%find_some. apply bool_decide_eq_true in Hr.
    split; [by apply list_elem_of_In|done].
  - split.
    + intros Hnone (r & -> & Hr)%list_elem_of_fmap.
      apply list_elem_of_In in Hr.
      pose proof (find_none _ _ Hnone r Hr) as Hf. cbn in Hf.
      by apply bool_decide_eq_false in Hf.
    + intros Hnot.
      destruct (List.find _ llamaModels) as [r|] eqn:Hfind; [|done].
      apply find_some in Hfind as [Hin Hr].
      apply bool_decide_eq_true in Hr. destruct Hnot.
      apply list_elem_of_fmap. exists r. split; [done|].
      by apply list_elem_of_In.
Qed.

(** X17. When the current load resolves, the engine published is the one it
    made, an engine of the selected model; the loading flag is cleared, the
    status reports that the model is ready, and the conversation is
    empty. *)
Theorem load_success_publishes_selected (s : State) (k : nat) :
  reachable llamaModels s → load_pending k s →
  let s' := loadResolved k s in
  engine s'
  = Some {| engine_model := selectedModelId s; engine_attempt := k |} ∧
  isLoadingModel s' = false ∧
  engineStatus s'
  = str "Model ready. Define your custom rules and start chatting." ∧
  messages s' = [].
Proof.
  intros Hreach Hk s'.
  destruct (loading_shown_reachable s Hreach k Hk) as [Heng _].
  pose proof (loading_empty_reachable s Hreach Heng) as Hempty.
  apply reachable_invariant in Hreach as [_ _ _ Hok].
  destruct Hk as (t & Ht & Hc & Hsettled).
  pose proof (uncancelled_registered s Hok k t Ht Hc) as Hreg.
  pose proof (registered_selected s Hok k t Hreg Ht) as Hmodel.
  subst s'. unfold loadResolved. rewrite Ht.
  destruct t as [? ? c st]; simpl in Hc, Hsettled, Hmodel; subst c st.
  unfold_setters. by rewrite Hmodel.
Qed.

(** *** Requests in flight *)

(** X18. No event changes the request or the engine of a generation already
    started: rules, temperature and token limit edited, or a model selected,
    during a generation apply to later requests only. *)
Theorem request_in_flight_unchanged (e : Event) (s : State) (g : nat)
    (t : GenTask) :
  gens s !! g = Some t →
  ∃ t', gens (step llamaModels e s) !! g = Some t' ∧
        gen_request t' = gen_request t ∧ gen_engine t' = gen_engine t.
Proof.
  intros Hg. destruct e; cbn [step].
  1: { rewrite selectModel_gens. by exists t. }
  9: { unfold submit. destruct (canSend s) eqn:Hcan; [|by exists t].
       apply canSend_true in Hcan as (Heng & _ & Hprompt & _).
       destruct (engine s) as [eng|] eqn:Heng'; [|done].
       rewrite (handleSend_sends s eng Heng' Hprompt). proj.
       exists t. by rewrite lookup_app_l by (by apply lookup_lt_Some in Hg). }
  all: crush_step; try (by exists t).
  all: match goal with
       | |- context [alter ?f ?g0 _ !! ?g1] =>
           destruct (decide (g0 = g1)) as [->|?];
           [ exists (f t); rewrite list_lookup_alter_eq, Hg
           | exists t; rewrite list_lookup_alter_ne by done ]
       end; done.
Qed.

End Properties.

(** ** Further concrete runs *)

Lemma streamingHi_reachable : reachable catalogAB streamingHi.
Proof.
  exists [EngineCreated 0; TypeInput (str "Hello"); Submit; StreamOpened 0;
          StreamChunk 0 (Some (str "Hi"))].
  vm_compute. reflexivity.
Defined.

Lemma mounted_reachable : reachable catalogAB (mounted catalogAB).
Proof. by exists []. Defined.

Lemma mounted_load_pending : load_pending 0 (mounted catalogAB).
Proof. eexists. split_and!; vm_compute; reflexivity. Defined.

Lemma status_never_empty_witness : engineStatus streamingHi ≠ [].
Proof. apply (status_never_empty catalogAB), streamingHi_reachable. Defined.

Lemma one_generation_at_a_time_witness :
  in_flight 0 streamingHi ∧ isStreaming streamingHi = true.
Proof.
  assert (in_flight 0 streamingHi) as Hflight
    by (eexists; split; vm_compute; reflexivity).
  split; [exact Hflight|].
  destruct (one_generation_at_a_time catalogAB streamingHi
              streamingHi_reachable) as [[_ Hstreaming] _].
  apply Hstreaming. by exists 0.
Defined.

Lemma input_empty_while_streaming_witness :
  isStreaming streamingHi = true ∧ userInput streamingHi = [].
Proof.
  split; [vm_compute; reflexivity|].
  apply (input_empty_while_streaming catalogAB);
    [apply streamingHi_reachable|vm_compute; reflexivity].
Defined.

Lemma conversation_is_transcript_witness :
  messages finishedHello = transcript [(str "Hello", str "Hi there!")] ∧
  ∃ turns, messages finishedHello = transcript turns ∧
           Forall trimmed_prompt turns.*1.
Proof.
  split; [vm_compute; reflexivity|].
  apply (conversation_is_transcript catalogAB).
  exists ([EngineCreated 0; TypeInput (str "Hello")]
          ++ helloGeneration (str "Hi there!")).
  vm_compute. reflexivity.
Defined.

Lemma requests_well_formed_witness :
  ∃ t, gens streamingHi !! 0 = Some t ∧ request_shape (gen_request t).
Proof.
  eexists. split; [vm_compute; reflexivity|].
  apply (requests_well_formed catalogAB streamingHi 0);
    [apply streamingHi_reachable|vm_compute; reflexivity].
Defined.

Lemma trailing_message_is_streamed_text_witness :
  ∃ t, gens streamingHi !! 0 = Some t ∧ aggregate t = str "Hi" ∧
       (messages streamingHi = [] ∨
        ∃ pre, messages streamingHi
               = pre ++ [ {| role := assistant; content := aggregate t |} ]).
Proof.
  eexists. split; [vm_compute; reflexivity|]. split; [reflexivity|].
  apply (trailing_message_is_streamed_text catalogAB streamingHi 0);
    [apply streamingHi_reachable|vm_compute; reflexivity|reflexivity].
Defined.


Lemma generation_error_shown_witness :
  messages (genError 0 (str "out of memory") streamingHi)
  = [ {| role := user; content := str "Hello" |};
      {| role := assistant;
         content := warning_sign ++ str " " ++ str "out of memory" |} ] ∧
  isStreaming (genError 0 (str "out of memory") streamingHi) = false.
Proof.
  split; [vm_compute; reflexivity|].
  eapply (generation_error_shown catalogAB streamingHi 0);
    [apply streamingHi_reachable|vm_compute; reflexivity|reflexivity].
Defined.

Lemma nothing_sent_while_loading_witness :
  engine (mounted catalogAB) = None ∧
  isLoadingModel (mounted catalogAB) = true ∧
  messages (mounted catalogAB) = [] ∧
  submit (mounted catalogAB) = mounted catalogAB.
Proof.
  apply (nothing_sent_while_loading catalogAB (mounted catalogAB) 0);
    [apply mounted_reachable|apply mounted_load_pending].
Defined.

Lemma no_engine_no_conversation_witness :
  engine switchedToB = None ∧
  messages switchedToB = [] ∧ handleSend switchedToB = switchedToB.
Proof.
  split; [vm_compute; reflexivity|].
  apply (no_engine_no_conversation catalogAB).
  - exists [SelectModel (str "Llama-B")]. vm_compute. reflexivity.
  - vm_compute. reflexivity.
Defined.

Lemma failedA_no_load_pending : no_load_pending failedA.
Proof.
  intros k (t & Ht & Hc & Hsettled).
  destruct k as [|k]; vm_compute in Ht; [|discriminate Ht].
  injection Ht as <-. discriminate Hsettled.
Defined.

Lemma no_engine_until_new_selection_witness :
  let evs := [SelectModel (str "Llama-A"); TypeInput (str "Hello"); Submit;
              EngineCreated 0; EngineProgress 0 progress42] in
  engine (run catalogAB evs failedA) = None ∧
  submit (run catalogAB evs failedA) = run catalogAB evs failedA.
Proof.
  apply (no_engine_until_new_selection catalogAB).
  - vm_compute. reflexivity.
  - apply failedA_no_load_pending.
  - repeat constructor.
Defined.

Lemma load_failure_is_terminal_witness :
  let evs := [SelectModel (str "Llama-A"); EngineCreated 0] in
  let s' := loadRejected 0 (str "network") (mounted catalogAB) in
  engineStatus s' = str "Failed to load model: " ++ str "network" ∧
  isLoadingModel s' = false ∧
  engine (run catalogAB evs s') = None.
Proof.
  apply (load_failure_is_terminal catalogAB (mounted catalogAB) 0).
  - apply mounted_reachable.
  - apply mounted_load_pending.
  - repeat constructor.
Defined.

Lemma only_trailing_reply_changes_witness :
  messages (step catalogAB Submit finishedHello) = messages finishedHello ∧
  messages
    (step catalogAB Submit
       (step catalogAB (TypeInput (str "More")) finishedHello))
  = messages finishedHello
    ++ [ {| role := user; content := str "More" |};
         {| role := assistant; content := [] |} ] ∧
  messages (step catalogAB (StreamChunk 0 (Some (str " there"))) streamingHi)
  !! 0 = Some {| role := user; content := str "Hello" |}.
Proof.
  assert (reachable catalogAB finishedHello) as Hreach.
  { exists ([EngineCreated 0; TypeInput (str "Hello")]
            ++ helloGeneration (str "Hi there!")).
    vm_compute. reflexivity. }
  split; [vm_compute; reflexivity|]. split; [vm_compute; reflexivity|].
  apply (only_trailing_reply_changes catalogAB
           (StreamChunk 0 (Some (str " there"))) streamingHi).
  - apply streamingHi_reachable.
  - reflexivity.
  - vm_compute. reflexivity.
  - right. reflexivity.
Defined.

Lemma progress_report_shown_witness :
  loadProgress (loadProgressed 0 progress42 (mounted catalogAB))
  = Some progress42 ∧
  engineStatus (loadProgressed 0 progress42 (mounted catalogAB))
  = str "42% " ++ [bullet] ++ str " Fetching".
Proof.
  destruct mounted_load_pending as (t & Ht & Hc & _).
  destruct (progress_report_shown (mounted catalogAB) 0 t progress42 Ht Hc)
    as (Hstored & Hshown & _).
  split; [exact Hstored|]. rewrite Hshown. vm_compute. reflexivity.
Defined.

Lemma load_uses_catalog_record_witness :
  ∃ t, last (loads (selectModel catalogAB (str "Llama-B") streamingHi))
       = Some t ∧
       load_model_id t = str "Llama-B" ∧
       (∀ r, load_record t = Some r →
             r ∈ catalogAB ∧ model_id r = str "Llama-B") ∧
       (load_record t = None ↔ str "Llama-B" ∉ model_id <$> catalogAB).
Proof.
  apply (load_uses_catalog_record catalogAB (str "Llama-B") streamingHi).
  - discriminate.
  - vm_compute. discriminate.
Defined.

Lemma load_success_publishes_selected_witness :
  let s' := loadResolved 0 (mounted catalogAB) in
  engine s'
  = Some {| engine_model := selectedModelId (mounted catalogAB);
            engine_attempt := 0 |} ∧
  isLoadingModel s' = false ∧
  engineStatus s'
  = str "Model ready. Define your custom rules and start chatting." ∧
  messages s' = [].
Proof.
  apply (load_success_publishes_selected catalogAB (mounted catalogAB) 0);
    [apply mounted_reachable|apply mounted_load_pending].
Defined.

Lemma request_in_flight_unchanged_witness :
  ∃ t, gens streamingHi !! 0 = Some t ∧
  ∃ t', gens (step catalogAB (EditRules (str "Be brief.")) streamingHi) !! 0
        = Some t' ∧
        gen_request t' = gen_request t ∧ gen_engine t' = gen_engine t.
Proof.
  eexists. split; [vm_compute; reflexivity|].
  apply (request_in_flight_unchanged catalogAB). vm_compute. reflexivity.
Defined.

(** ** The round trip with other events in between *)

Lemma extended_app (a : jsstring) (l1 l2 : list (option jsstring)) :
  extended a (l1 ++ l2) = extended (extended a l1) l2.
Proof. apply foldl_app. Qed.

(** While a generation runs, the events of any other generation find it
    finished and do nothing. *)
Lemma other_generation_idle (g g0 : nat) (delta : option jsstring)
    (reply err : jsstring) (s : State) :
  streaming_lock s → in_flight g s → g0 ≠ g →
  streamOpened g0 s = s ∧ streamChunk g0 delta s = s ∧
  streamEnd g0 s = s ∧ finalReply g0 reply s = s ∧ genError g0 err s = s.
Proof.
  intros Hlock Hg Hne.
  unfold streamOpened, streamChunk, streamEnd, finalReply, genError.
  destruct (gens s !! g0) as [[? ? ? st]|] eqn:Hg0; [|done].
  destruct st; try done.
  all: destruct Hne; apply (in_flight_unique g0 g s Hlock); [|done].
  all: by eexists.
Qed.

Section RoundTrip.

Variable llamaModels : list ModelRecord.

Lemma step_turn_open (g : nat) (pre : list ChatMessage) (a : jsstring)
    (e : Event) (s : State) :
  turn_open g pre a s → clearing e s = false →
  in_flight g (step llamaModels e s) →
  turn_open g pre (extended a (applied_chunk g e s)) (step llamaModels e s).
Proof.
  intros (Hlock & (t & Hg & Hrun & Hagg) & Hmsgs) Hclear Hafter.
  split; [by apply step_lock|].
  assert (in_flight g s) as Hflight by (by exists t).
  pose proof (in_flight_streaming g s Hlock Hflight) as Hstreaming.
  revert Hafter.
  destruct e; cbn [step clearing applied_chunk] in *.
  1: { destruct (decide (id = selectedModelId s)) as [->|Hne].
       - rewrite selectModel_same. intros _. split; [by exists t|done].
       - rewrite bool_decide_false, andb_true_r in Hclear by done.
         apply nonempty_false in Hclear. subst id.
         rewrite selectModel_empty by done. proj. intros _.
         split; [by exists t|done]. }
  9: { rewrite (submit_streaming s Hstreaming). intros _.
       split; [by exists t|done]. }
  9: done.
  1-8: intros _; crush_step; (split; [by exists t|done]).
  all: destruct (decide (g0 = g)) as [->|Hne].
  all: try (rewrite ?bool_decide_false by done;
            match goal with
            | |- context [streamOpened ?g0 ?s0] =>
                destruct (other_generation_idle g g0 None [] [] s
                            Hlock Hflight Hne) as (-> & _)
            | |- context [streamChunk ?g0 ?d ?s0] =>
                destruct (other_generation_idle g g0 d [] [] s
                            Hlock Hflight Hne) as (_ & -> & _)
            | |- context [streamEnd ?g0 ?s0] =>
                destruct (other_generation_idle g g0 None [] [] s
                            Hlock Hflight Hne) as (_ & _ & -> & _)
            | |- context [finalReply ?g0 ?r ?s0] =>
                destruct (other_generation_idle g g0 None r [] s
                            Hlock Hflight Hne) as (_ & _ & _ & -> & _)
            | |- context [genError ?g0 ?x ?s0] =>
                destruct (other_generation_idle g g0 None [] x s
                            Hlock Hflight Hne) as (_ & _ & _ & _ & ->)
            end; intros _; (split; [by exists t|done])).
  all: rewrite ?bool_decide_true by done.
  all: unfold streamOpened, streamChunk, streamEnd, finalReply, genError,
         finishGen, in_flight; rewrite Hg.
  all: destruct t as [? ? agg st]; simpl in Hagg, Hrun; subst agg.
  all: destruct st; try done; unfold_setters; cbn [extended foldl].
  all: try (intros _; split; [eexists; by rewrite Hg|done]).
  all: repeat case_match; unfold_setters.
  all: rewrite ?list_lookup_alter_eq, ?Hg; cbn [fmap option_fmap option_map].
  all: try (intros (t' & Ht' & Hrun'); by simplify_eq/=).
  all: intros _; split; [eexists; split; [done|by split]|].
  all: by rewrite ?Hmsgs, ?overwriteLast_snoc.
Qed.

Lemma run_turn_open (g : nat) (pre : list ChatMessage) (evs : list Event)
    (a : jsstring) (s : State) :
  turn_open g pre a s → no_clearing llamaModels evs s = true →
  in_flight g (run llamaModels evs s) →
  turn_open g pre (extended a (applied_chunks llamaModels g evs s))
    (run llamaModels evs s).
Proof.
  revert a s. induction evs as [|e evs IH]; intros a s Hs Hclear Hafter;
    [done|].
  cbn [no_clearing applied_chunks] in *. rewrite run_cons in *.
  apply andb_true_iff in Hclear as [Hclear%negb_true_iff Hrest].
  rewrite extended_app. apply IH; [|done..].
  apply step_turn_open; [done..|].
  destruct Hs as (_ & (t & Hg & _) & _).
  apply (in_flight_run_back llamaModels evs); [|done].
  pose proof (step_gens_length llamaModels e s).
  apply lookup_lt_Some in Hg. lia.
Qed.

(** C6 (as amended). From a reachable state in which a prompt can be sent, a
    submission followed by any events none of which empties the conversation
    (no reset, no selection of another model), at the end of which the
    generation awaits its final message, and then by that final message,
    extends the conversation by exactly two messages: the user message with
    the trimmed prompt, then an assistant message with the final text, or,
    when the final text is empty, with the chunks of the stream
    concatenated. *)
Theorem submit_round_trip (s : State) (evs : list Event)
    (reply : jsstring) :
  reachable llamaModels s → canSend s = true →
  let g := length (gens s) in
  let s' := run llamaModels evs (submit s) in
  no_clearing llamaModels evs (submit s) = true →
  (∃ t, gens s' !! g = Some t ∧ stage t = AwaitFinal) →
  messages (finalReply g reply s')
  = messages s
    ++ [ {| role := user; content := trim (userInput s) |};
         {| role := assistant;
            content :=
              if nonempty reply then reply
              else streamed (applied_chunks llamaModels g evs (submit s)) |} ].
Proof.
  intros Hreach Hcan g s' Hclear (t & Ht & Hstage).
  pose proof (reachable_invariant llamaModels s Hreach) as [_ _ Href _].
  assert (streaming_lock (submit s)) as Hlock.
  { apply (step_lock llamaModels Submit).
    by apply reachable_invariant in Hreach as [? _ _ _]. }
  pose proof Hcan as (Heng & _ & Hprompt & _)%canSend_true.
  destruct (engine s) as [eng|] eqn:Heng'; [clear Heng|done].
  assert (turn_open g
            (messages s
             ++ [ {| role := user; content := trim (userInput s) |} ])
            [] (submit s)) as Hopen.
  { split; [done|]. revert Hlock. unfold submit. rewrite Hcan.
    rewrite (handleSend_sends s eng Heng' Hprompt), Href. proj. intros _.
    split; [|done]. eexists.
    rewrite lookup_app_r, Nat.sub_diag by done. by split_and!. }
  assert (in_flight g s') as Hflight.
  { exists t. split; [done|]. unfold running. by rewrite Hstage. }
  destruct (run_turn_open g _ evs [] (submit s) Hopen Hclear Hflight)
    as (_ & (t' & Ht' & _ & Hagg) & Hmsgs).
  destruct (finalReply_awaiting g t reply s' Ht Hstage) as (-> & _).
  fold s' in Hmsgs. rewrite Hmsgs, overwriteLast_snoc, <- !app_assoc.
  by destruct (nonempty reply).
Qed.

End RoundTrip.

Lemma submit_round_trip_witness :
  canSend readyHello = true ∧
  no_clearing catalogAB helloInterleaved (submit readyHello) = true ∧
  applied_chunks catalogAB 0 helloInterleaved (submit readyHello)
  = [Some (str "Hi"); None; Some (str " there")] ∧
  messages
    (finalReply 0 (str "Hi there!")
       (run catalogAB helloInterleaved (submit readyHello)))
  = [ {| role := user; content := str "Hello" |};
      {| role := assistant; content := str "Hi there!" |} ] ∧
  messages
    (finalReply 0 [] (run catalogAB helloInterleaved (submit readyHello)))
  = [ {| role := user; content := str "Hello" |};
      {| role := assistant; content := str "Hi there" |} ].
Proof.
  assert (reachable catalogAB readyHello) as Hreach.
  { exists [EngineCreated 0; TypeInput (str "Hello")]. vm_compute. reflexivity. }
  assert (canSend readyHello = true) as Hcan by (vm_compute; reflexivity).
  assert (no_clearing catalogAB helloInterleaved (submit readyHello) = true)
    as Hclear by (vm_compute; reflexivity).
  pose proof (submit_round_trip catalogAB readyHello helloInterleaved
                (str "Hi there!") Hreach Hcan Hclear) as Hfull.
  pose proof (submit_round_trip catalogAB readyHello helloInterleaved
                [] Hreach Hcan Hclear) as Hempty.
  split; [exact Hcan|]. split; [exact Hclear|].
  split; [vm_compute; reflexivity|]. split.
  - specialize (Hfull ltac:(eexists; split; vm_compute; reflexivity)).
    vm_compute in Hfull |- *. exact Hfull.
  - specialize (Hempty ltac:(eexists; split; vm_compute; reflexivity)).
    vm_compute in Hempty |- *. exact Hempty.
Defined.

(** Selecting the selected model again changes nothing: the engine, the
    status and the conversation stay, and no load starts.  Nor does a load
    start for the empty id. *)
Lemma select_without_loading :
  selectModel catalogAB (str "Llama-A") finishedHello = finishedHello ∧
  engine finishedHello ≠ None ∧
  messages finishedHello ≠ [] ∧
  isLoadingModel finishedHello = false ∧
  engine (selectModel catalogAB [] finishedHello) ≠ None ∧
  messages (selectModel catalogAB [] finishedHello) ≠ [] ∧
  isLoadingModel (selectModel catalogAB [] finishedHello) = false.
Proof. split_and!; vm_compute; (reflexivity || discriminate). Qed.
